(** * ModSimPy notebooks: a shallow embedding of the model functions

    The notebooks of chapters 7, 17, 20 and 22 (and the Spider-Man case
    study) define small model functions over Python numbers.  Python's
    numbers are IEEE binary64 floats; the physics they encode is stated
    over the reals.  Each function is therefore embedded once, over an
    abstract scalar type, and read at three instances:

    - [Q]     exact rationals (executable, no square root),
    - [R]     the reals (exact, with square root and trigonometry),
    - [float] binary64 (executable, what CPython computes).  *)

From Stdlib Require Import PrimFloat.
From Stdlib Require Import ZArith QArith Qabs Reals Lra Lia List Bool Sorted.
From Stdlib Require Lqa.
Import ListNotations.

Set Implicit Arguments.
#[local] Set Warnings "-inexact-float".

(** ** Errors and fallible results *)

Inductive error : Type :=
| ZeroDivisionError   (* Python: float division by zero *)
| DivideByZero        (* unit direction of a zero vector *)
| OutOfDomain         (* interpolation query outside the samples *)
| ConfigurationError  (* mismatched state shapes *)
| IntegrationFailure  (* the solver gave up *)
| DimensionalityError. (* quantities whose units do not agree *)

Inductive result (A : Type) : Type :=
| OK  : A -> result A
| Err : error -> result A.
Arguments Err {A} _.

Definition bind {A B : Type} (r : result A) (k : A -> result B) : result B :=
  match r with
  | OK a => k a
  | Err e => Err e
  end.

Declare Scope result_scope.
Delimit Scope result_scope with result.
Notation "x <- r ;; k" := (bind r (fun x => k))
  (at level 61, r at next level, right associativity) : result_scope.

(** ** Scalars *)

Class Scalar (A : Type) : Type := {
  of_Z : Z -> A;
  nadd : A -> A -> A;
  nsub : A -> A -> A;
  nmul : A -> A -> A;
  ndiv : A -> A -> A;
  nneg : A -> A;
  neqb : A -> A -> bool;
  nltb : A -> A -> bool
}.

Class HasSqrt (A : Type) : Type := nsqrt : A -> A.

Declare Scope num_scope.
Delimit Scope num_scope with num.
Infix "+" := nadd : num_scope.
Infix "-" := nsub : num_scope.
Infix "*" := nmul : num_scope.
Infix "/" := ndiv : num_scope.
Notation "- x" := (nneg x) : num_scope.
Infix "=?" := neqb : num_scope.
Infix "<?" := nltb : num_scope.

(** Python's [x ** n] for a literal natural exponent, as the product of
    [n] factors.  Over [Q] and [R] that is the power itself.  On floats
    CPython calls the C library's [pow], which agrees with the rounded
    product up to one unit in the last place and raises [OverflowError]
    where the product overflows; the binary64 instance is the rounded
    product. *)
Fixpoint npow {A : Type} `{Scalar A} (x : A) (n : nat) : A :=
  match n with
  | O => of_Z 1
  | S O => x
  | S m => nmul x (npow x m)
  end.
Infix "^" := npow : num_scope.

(** Python's [x / y] on floats raises [ZeroDivisionError] when [y == 0]. *)
Definition pydiv {A : Type} `{Scalar A} (x y : A) : result A :=
  if neqb y (of_Z 0) then Err ZeroDivisionError else OK (ndiv x y).

#[export] Instance Scalar_Q : Scalar Q := {
  of_Z := inject_Z;
  nadd := Qplus;
  nsub := Qminus;
  nmul := Qmult;
  ndiv := Qdiv;
  nneg := Qopp;
  neqb := Qeq_bool;
  nltb := fun x y => negb (Qle_bool y x)
}.

Definition Reqb (x y : R) : bool := if Req_dec_T x y then true else false.
Definition Rltb (x y : R) : bool := if Rlt_dec x y then true else false.

#[export] Instance Scalar_R : Scalar R := {
  of_Z := IZR;
  nadd := Rplus;
  nsub := Rminus;
  nmul := Rmult;
  ndiv := Rdiv;
  nneg := Ropp;
  neqb := Reqb;
  nltb := Rltb
}.

#[export] Instance Sqrt_R : HasSqrt R := sqrt.

(** Integers below 2^53 convert to binary64 without rounding. *)
Fixpoint float_of_pos (p : positive) : float :=
  match p with
  | xH => 1%float
  | xO q => PrimFloat.mul 2%float (float_of_pos q)
  | xI q => PrimFloat.add (PrimFloat.mul 2%float (float_of_pos q)) 1%float
  end.

Definition float_of_Z (z : Z) : float :=
  match z with
  | Z0 => 0%float
  | Zpos p => float_of_pos p
  | Zneg p => PrimFloat.opp (float_of_pos p)
  end.

#[export] Instance Scalar_float : Scalar float := {
  of_Z := float_of_Z;
  nadd := PrimFloat.add;
  nsub := PrimFloat.sub;
  nmul := PrimFloat.mul;
  ndiv := PrimFloat.div;
  nneg := PrimFloat.opp;
  neqb := PrimFloat.eqb;
  nltb := PrimFloat.ltb
}.

#[export] Instance Sqrt_float : HasSqrt float := PrimFloat.sqrt.

(** ** Chapter 7: quadratic growth *)

Module Growth.
Section Model.
Context {A : Type} `{Scalar A}.
Local Open Scope num_scope.

(** The fields of the [System] object that the two functions read. *)
Record System : Type := { alpha : A; beta : A }.

(** [def growth_func_quad(t, pop, system):
       return system.alpha * pop + system.beta * pop**2] *)
Definition growth_func_quad (t : A) (pop : A) (system : System) : A :=
  alpha system * pop + beta system * pop ^ 2.

(** [def carrying_capacity(system):
       K = -system.alpha / system.beta
       return K] *)
Definition carrying_capacity (system : System) : result A :=
  (K <- pydiv (- alpha system) (beta system) ;;
   OK K)%result.
End Model.
Arguments System A : clear implicits.

(** [sys1 = System(alpha=0.025, beta=-0.0018)], as binary64 values. *)
Definition sys1 : System float :=
  {| alpha := 0.025%float; beta := PrimFloat.opp 0.0018%float |}.

(** The same system with exact decimal parameters. *)
Definition sys1_exact : System Q :=
  {| alpha := 25 # 1000; beta := - (18 # 10000) |}.
End Growth.

(** ** Chapter 22: vectors

    [Vector], [vector_mag] and the arithmetic on vectors come from the
    [modsim] library.  Every vector the notebooks build has two components
    ([Vector(3, 4)], [Vector(vx, vy)], [Vector(0, -1)]). *)

Module Vec.
Section Model.
Context {A : Type} `{Scalar A}.
Local Open Scope num_scope.

(** Modelled from the spec: [Vector] of [modsim], a numeric tuple with
    componentwise [+], [-], scalar [*] and scalar [/]. *)
Record Vector : Type := mkVector { x : A; y : A }.

(** [A + B] *)
Definition vadd (a b : Vector) : Vector :=
  mkVector (x a + x b) (y a + y b).

(** [A - B] *)
Definition vsub (a b : Vector) : Vector :=
  mkVector (x a - x b) (y a - y b).

(** [-A] *)
Definition vneg (a : Vector) : Vector :=
  mkVector (- x a) (- y a).

(** [c * A], scalar on the left *)
Definition smul (c : A) (a : Vector) : Vector :=
  mkVector (c * x a) (c * y a).

(** [A * c], scalar on the right *)
Definition vmul (a : Vector) (c : A) : Vector :=
  mkVector (x a * c) (y a * c).

(** [A / c], every component divided *)
Definition vdiv (a : Vector) (c : A) : Vector :=
  mkVector (x a / c) (y a / c).

Definition vzero : Vector := mkVector (of_Z 0) (of_Z 0).

(** Modelled from the spec: [vector_mag] of [modsim], the Euclidean norm
    over the components. *)
Definition vector_mag `{HasSqrt A} (a : Vector) : A :=
  nsqrt (x a * x a + y a * y a).

(** The notebook's [A / vector_mag(A)], which chapter 22 says [vector_hat]
    also computes for a vector such as [A = Vector(3, 4)]. *)
Definition hat_by_division `{HasSqrt A} (a : Vector) : result Vector :=
  OK (vdiv a (vector_mag a)).
End Model.
Arguments Vector A : clear implicits.
End Vec.

(** ** Chapter 22: the baseball *)

Module Baseball.
Section Model.
Context {A : Type} `{Scalar A} `{HasSqrt A}.
Local Open Scope num_scope.

(** [vector_hat] is defined in [modsim]; the functions below only call it. *)
Variable vector_hat : Vec.Vector A -> result (Vec.Vector A).

(** The parameters that [drag_force] and [slope_func] read from [system]. *)
Record System : Type := {
  mass : A;
  g : A;
  rho : A;
  C_d : A;
  area : A
}.

(** [State(x=..., y=..., vx=..., vy=...)] *)
Record State : Type := mkState { x : A; y : A; vx : A; vy : A }.

(** [def drag_force(V, system):
       rho, C_d, area = system.rho, system.C_d, system.area
       mag = rho * vector_mag(V)**2 * C_d * area / 2
       direction = -vector_hat(V)
       f_drag = mag * direction
       return f_drag] *)
Definition drag_force (V : Vec.Vector A) (system : System)
  : result (Vec.Vector A) :=
  let mag :=
    rho system * Vec.vector_mag V ^ 2 * C_d system * area system / of_Z 2 in
  (h <- vector_hat V ;;
   let direction := Vec.vneg h in
   let f_drag := Vec.smul mag direction in
   OK f_drag)%result.

(** [def slope_func(t, state, system):
       x, y, vx, vy = state
       mass, g = system.mass, system.g
       V = Vector(vx, vy)
       a_drag = drag_force(V, system) / mass
       a_grav = g * Vector(0, -1)
       A = a_grav + a_drag
       return V.x, V.y, A.x, A.y] *)
Definition slope_func (t : A) (state : State) (system : System)
  : result (A * A * A * A) :=
  let V := Vec.mkVector (vx state) (vy state) in
  (f <- drag_force V system ;;
   let a_drag := Vec.vdiv f (mass system) in
   let a_grav := Vec.smul (g system) (Vec.mkVector (of_Z 0) (of_Z (-1))) in
   let acc := Vec.vadd a_grav a_drag in
   OK (Vec.x V, Vec.y V, Vec.x acc, Vec.y acc))%result.

(** [def event_func(t, state, system):
       x, y, vx, vy = state
       return y] *)
Definition event_func (t : A) (state : State) (system : System) : A :=
  y state.
End Model.
Arguments System A : clear implicits.
Arguments State A : clear implicits.

(** A velocity of 40 m/s in the 3-4-5 direction, and the parameters of
    chapter 22 with the frontal area rounded to four decimals. *)
Definition V_test : Vec.Vector R := Vec.mkVector 24%R 32%R.
Definition system_test : System R :=
  {| mass := 145 / 1000; g := 98 / 10; rho := 12 / 10;
     C_d := 33 / 100; area := 42 / 10000 |}%R.
End Baseball.

(** ** Quantities with units

    The Spider-Man case study computes with quantities: [381 * m],
    [9.8 * m/s**2], [40 * N / m], [Vector(10, 10) * m/s].  A quantity is a
    number with a unit, and every unit of the case study is a product of
    powers of the metre, the kilogram and the second ([N] is
    [kg * m / s**2]).  Products and quotients combine the units; a sum or a
    difference raises [DimensionalityError] unless the units agree.  A
    bare Python number is a quantity without unit. *)

Module Units.

(** The exponents of the metre, the kilogram and the second. *)
Record Unit : Type := mkUnit { metres : Z; kilograms : Z; seconds : Z }.

Definition dimensionless : Unit := mkUnit 0 0 0.
Definition metre : Unit := mkUnit 1 0 0.
Definition kilogram : Unit := mkUnit 0 1 0.
Definition second : Unit := mkUnit 0 0 1.

Definition umul (u v : Unit) : Unit :=
  mkUnit (metres u + metres v) (kilograms u + kilograms v)
         (seconds u + seconds v).

Definition udiv (u v : Unit) : Unit :=
  mkUnit (metres u - metres v) (kilograms u - kilograms v)
         (seconds u - seconds v).

Definition unit_eqb (u v : Unit) : bool :=
  (metres u =? metres v)%Z && (kilograms u =? kilograms v)%Z
  && (seconds u =? seconds v)%Z.

(** [N] and [m/s**2] *)
Definition newton : Unit := udiv (umul kilogram metre) (umul second second).
Definition acceleration : Unit := udiv metre (umul second second).

Section Model.
Context {A : Type} `{Scalar A}.
Local Open Scope num_scope.

Record Quantity : Type := mkQuantity { number : A; units : Unit }.

(** A bare number, such as the [0] of [mag = 0]. *)
Definition bare (a : A) : Quantity := mkQuantity a dimensionless.

(** [p * q] *)
Definition qmul (p q : Quantity) : Quantity :=
  mkQuantity (number p * number q) (umul (units p) (units q)).

(** [p - q] *)
Definition qsub (p q : Quantity) : result Quantity :=
  if unit_eqb (units p) (units q)
  then OK (mkQuantity (number p - number q) (units p))
  else Err DimensionalityError.

(** A [Vector] of quantities, such as [Vector(10, 10) * m/s]: the
    components and one unit for all of them. *)
Record QVector : Type := mkQVector { components : Vec.Vector A; vunits : Unit }.

(** [V.mag], the magnitude in the unit of the vector *)
Definition qmag `{HasSqrt A} (v : QVector) : Quantity :=
  mkQuantity (Vec.vector_mag (components v)) (vunits v).

(** [-V] *)
Definition qvneg (v : QVector) : QVector :=
  mkQVector (Vec.vneg (components v)) (vunits v).

(** [V * q] *)
Definition qvmul (v : QVector) (q : Quantity) : QVector :=
  mkQVector (Vec.vmul (components v) (number q)) (umul (vunits v) (units q)).

(** [V / q] *)
Definition qvdiv (v : QVector) (q : Quantity) : QVector :=
  mkQVector (Vec.vdiv (components v) (number q)) (udiv (vunits v) (units q)).

(** [A + B] *)
Definition qvadd (a b : QVector) : result QVector :=
  if unit_eqb (vunits a) (vunits b)
  then OK (mkQVector (Vec.vadd (components a) (components b)) (vunits a))
  else Err DimensionalityError.

(** [V / V.mag], the unit vector that the [hat] method is documented to
    return; the unit of [V] cancels in it. *)
Definition qhat_by_division `{HasSqrt A} (v : QVector) : result QVector :=
  OK (qvdiv v (qmag v)).
End Model.
Arguments Quantity A : clear implicits.
Arguments QVector A : clear implicits.
End Units.

(** ** Case study: Spider-Man *)

Module SpiderMan.
Import Vec Units.
Section Model.
Context {A : Type} `{Scalar A} `{HasSqrt A}.
Local Open Scope num_scope.

(** [magnitude] and the [hat] method of vectors are defined in [modsim]. *)
Variable magnitude : Quantity A -> A.
Variable vector_hat : QVector A -> result (QVector A).

(** The parameters that [spring_force] reads from [system]. *)
Record System : Type := { length : Quantity A; k : Quantity A }.

(** [def spring_force(L, system):
       extension = L.mag - system.length
       if magnitude(extension) < 0:
           mag = 0
       else:
           mag = system.k * extension
       direction = -L.hat()
       f_spring = direction * mag
       return f_spring] *)
Definition spring_force (L : QVector A) (system : System)
  : result (QVector A) :=
  (extension <- qsub (qmag L) (length system) ;;
   let mag := if magnitude extension <? of_Z 0
              then bare (of_Z 0)
              else qmul (k system) extension in
   h <- vector_hat L ;;
   let direction := qvneg h in
   let f_spring := qvmul direction mag in
   OK f_spring)%result.
End Model.
Arguments System A : clear implicits.

(** A slack cable: 50 m of a 100 m web, hanging straight down. *)
Definition L_slack : QVector R := mkQVector (mkVector 0%R (-50)%R) metre.

(** [L_test = Vector(0, -system.length - 1*m)]: the web stretched by 1 m. *)
Definition L_test : QVector R := mkQVector (mkVector 0%R (-101)%R) metre.

(** [length = 100 * m] and [k = 40 * N / m] *)
Definition system1 : System R :=
  {| length := mkQuantity 100%R metre;
     k := mkQuantity 40%R (udiv newton metre) |}.
End SpiderMan.

(** ** Chapter 20: the falling penny *)

Module Penny.
Section Model.
Context {A : Type} `{Scalar A}.
Local Open Scope num_scope.

(** [State(y=..., v=...)] *)
Record State : Type := mkState { y : A; v : A }.

(** [System(init=init, g=g, t_end=t_end, dt=dt)] *)
Record System : Type := {
  init : State;
  g : A;
  t_end : A;
  dt : A
}.

(** [def slope_func(t, state, system):
       y, v = state
       dydt = v
       dvdt = -system.g
       return dydt, dvdt] *)
Definition slope_func (t : A) (state : State) (system : System) : A * A :=
  let dydt := v state in
  let dvdt := - g system in
  (dydt, dvdt).

(** [def event_func(t, state, system):
       y, v = state
       return y] *)
Definition event_func (t : A) (state : State) (system : System) : A :=
  y state.
End Model.
Arguments State A : clear implicits.
Arguments System A : clear implicits.

(** [init = State(y=381, v=0); g = 9.8; t_end = 10; dt = 0.1] *)
Definition system : System Q :=
  {| init := mkState 381 0; g := 98 # 10; t_end := 10; dt := 1 # 10 |}.
End Penny.

(** ** Chapter 22: polar coordinates (over the reals) *)

Module Polar.
Import Vec.
Local Open Scope R_scope.

(** Modelled from the spec: [pol2cart] of [modsim],
    [from_polar(theta, r) = (r cos theta, r sin theta)]. *)
Definition pol2cart (theta r : R) : R * R :=
  (r * cos theta, r * sin theta).

(** Modelled from the spec: the [atan2] of [to_polar], the two-argument
    arctangent with values in (-pi, pi] and [atan2 0 0 = 0]. *)
Definition atan2 (b a : R) : R :=
  if Rlt_dec 0 a then atan (b / a)
  else if Rlt_dec a 0 then
         if Rle_dec 0 b then atan (b / a) + PI else atan (b / a) - PI
  else if Rlt_dec 0 b then PI / 2
  else if Rlt_dec b 0 then - (PI / 2)
  else 0.

(** Modelled from the spec: [vector_angle] of [modsim], the angle of
    [to_polar(v) = (magnitude(v), atan2(v.y, v.x))]. *)
Definition vector_angle (a : Vector R) : R := atan2 (y a) (x a).

(** The notebook's [x, y = pol2cart(theta, mag); Vector(x, y)]. *)
Definition from_polar (theta r : R) : Vector R :=
  let (a, b) := pol2cart theta r in mkVector a b.

(** Modelled from the spec:
    [to_polar(v) = (magnitude(v), atan2(v.y, v.x))]. *)
Definition to_polar (a : Vector R) : R * R := (vector_mag a, vector_angle a).

(** [theta mod 2 pi], the representative in [0, 2 pi). *)
Definition mod_2pi (theta : R) : R :=
  theta - 2 * PI * IZR (Int_part (theta / (2 * PI))).
End Polar.

(** ** Chapter 17: interpolation *)

Module Interp.
Section Model.
Context {A : Type} `{Scalar A}.
Local Open Scope num_scope.

(** A pandas [Series]: the rows (index, value) in index order. *)
Definition Series : Type := list (A * A).

(** Sample times strictly increasing (hence unique). *)
Fixpoint increasing (series : Series) : bool :=
  match series with
  | (t0, _) :: (((t1, _) :: _) as rest) => (t0 <? t1) && increasing rest
  | _ => true
  end.

(** The straight line through [(t0, v0)] and [(t1, v1)], evaluated at [t]:
    the slope of the segment times the distance from its left end, added
    to the value there. *)
Definition line_through (t0 v0 t1 v1 t : A) : A :=
  v0 + (v1 - v0) / (t1 - t0) * (t - t0).

(** Modelled from the spec: linear interpolation between two sample
    times.  The value at [t] of the polygon through the samples, when [t]
    lies in the sampled range.  Chapter 17 says that [interpolate] is a
    wrapper of SciPy's [interp1d], whose segment for [t] is the one with
    [t0 < t <= t1] (the first one for the first sample time): a sample
    time after the first is evaluated as the right end of the segment
    before it, not looked up. *)
Fixpoint on_polygon (series : Series) (t : A) : option A :=
  match series with
  | [] => None
  | [(t0, v0)] => if t =? t0 then Some v0 else None
  | (t0, v0) :: (((t1, v1) :: _) as rest) =>
      if t <? t0 then None
      else if t1 <? t then on_polygon rest t
      else Some (line_through t0 v0 t1 v1 t)
  end.

(** What [interpolate] does with a query outside the sampled range is
    decided in [modsim]; the notebooks pass no option for it. *)
Variable outside : Series -> A -> result A.

(** Modelled from the spec: [interpolate] of [modsim], which chapter 17
    describes as linear interpolation connecting the data points with
    straight lines.  [interpolate series] is the callable. *)
Definition interpolate (series : Series) : A -> result A :=
  fun t =>
    match on_polygon series t with
    | Some v => OK v
    | None => outside series t
    end.
End Model.
Arguments Series A : clear implicits.

(** The samples [(0,0), (10,10), (20,5)]. *)
Definition samples {A : Type} `{Scalar A} : Series A :=
  [ (of_Z 0, of_Z 0); (of_Z 10, of_Z 10); (of_Z 20, of_Z 5) ].

Definition refuse {A : Type} (series : Series A) (t : A) : result A :=
  Err OutOfDomain.

(** Two samples, [(0, 0)] and [(49, 1)], as binary64 values. *)
Definition ramp : Series float := [ (0%float, 0%float); (49%float, 1%float) ].
End Interp.

(** ** The event-aware driver (exact arithmetic) *)

Module Solver.
Local Open Scope Q_scope.

(** The state flattened to a plain numeric vector, as the solver sees it. *)
Definition Flat : Type := list Q.

(** Time-indexed samples. *)
Definition Trajectory : Type := list (Q * Flat).

Definition Slope : Type := Q -> Flat -> result Flat.

Inductive direction : Type := Rising | Falling | Either.

Record Event : Type := {
  event_func : Q -> Flat -> result Q;
  terminal : bool;
  dir : direction
}.

Inductive status : Type := ReachedEnd | TerminationEvent | Failed.

Record Details : Type := {
  status_of : status;
  t_events : list Q;
  nsteps : nat
}.

Definition success (d : Details) : bool :=
  match status_of d with
  | Failed => false
  | _ => true
  end.

(** The external integrator: from the slope function, the end time, the
    step-size hint and the current point, one accepted step or an error. *)
Definition Stepper : Type := Slope -> Q -> Q -> Q -> Flat -> result (Q * Flat).

(** Modelled from the spec: step 2 of section 4.2.  The sign of the event
    value changed between two accepted steps, or the new value is exactly
    zero.  A zero at the previous step is a baseline,
    not a crossing. *)
Definition crossed (d : direction) (e_prev e_now : Q) : bool :=
  let rising := nltb e_prev 0 && Qle_bool 0 e_now in
  let falling := nltb 0 e_prev && Qle_bool e_now 0 in
  match d with
  | Rising => rising
  | Falling => falling
  | Either => Qeq_bool e_now 0 || rising || falling
  end.

(** Componentwise [a + theta * (b - a)]. *)
Definition lerp (theta : Q) (s0 s1 : Flat) : Flat :=
  map (fun ab => fst ab + theta * (snd ab - fst ab)) (combine s0 s1).

(** Modelled from the spec: step 3 of section 4.2, the crossing refined
    by linear interpolation between the bracketing samples: the zero of the line through [(t0, e0)] and [(t1, e1)], and
    the state on the chord there. *)
Definition locate (t0 : Q) (s0 : Flat) (e0 : Q) (t1 : Q) (s1 : Flat) (e1 : Q)
  : Q * Flat :=
  if Qeq_bool e1 0 then (t1, s1)
  else let theta := e0 / (e0 - e1) in
       (t0 + (t1 - t0) * theta, lerp theta s0 s1).

Definition extend (sample : Q * Flat) (event_time : option Q)
           (r : Trajectory * Details) : Trajectory * Details :=
  (sample :: fst r,
   {| status_of := status_of (snd r);
      t_events := match event_time with
                  | Some te => te :: t_events (snd r)
                  | None => t_events (snd r)
                  end;
      nsteps := S (nsteps (snd r)) |}).

Definition stopped (st : status) : Trajectory * Details :=
  ([], {| status_of := st; t_events := []; nsteps := 0 |}).

Section Run.
Variable stepper : Stepper.
Variable slope_func : Slope.
Variable t_end : Q.
Variable dt : Q.
Variable events : option Event.

(** Modelled from the spec: the stepping loop of section 4.2.  It returns
    the samples after [(t, s)].  [fuel] is the step-count ceiling: when it
    is exceeded, or when the integrator reports failure, the run ends as
    failed with the samples reached so far.  An error raised by the slope
    or event function propagates. *)
Fixpoint integrate (fuel : nat) (t : Q) (s : Flat) (e_prev : Q)
  : result (Trajectory * Details) :=
  if Qle_bool t_end t then OK (stopped ReachedEnd)
  else
    match fuel with
    | O => OK (stopped Failed)
    | S fuel' =>
        match stepper slope_func t_end dt t s with
        | Err IntegrationFailure => OK (stopped Failed)
        | Err e => Err e
        | OK (t1, s1) =>
            match events with
            | None =>
                (r <- integrate fuel' t1 s1 e_prev ;;
                 OK (extend (t1, s1) None r))%result
            | Some ev =>
                (e1 <- event_func ev t1 s1 ;;
                 if crossed (dir ev) e_prev e1 then
                   let hit := locate t s e_prev t1 s1 e1 in
                   if terminal ev then
                     OK (extend hit (Some (fst hit)) (stopped TerminationEvent))
                   else
                     r <- integrate fuel' t1 s1 e1 ;;
                     OK (extend (t1, s1) (Some (fst hit)) r)
                 else
                   r <- integrate fuel' t1 s1 e1 ;;
                   OK (extend (t1, s1) None r))%result
            end
        end
    end.

(** Modelled from the spec: [run_solve_ivp] of [modsim], the event-aware
    driver of section 4.2.  It integrates from [t_0] to [t_end], evaluates
    the event function after every accepted step, and stops at the first
    crossing of a terminal event. *)
Definition run_solve_ivp (init : Flat) (t_0 : Q) (max_steps : nat)
  : result (Trajectory * Details) :=
  (e0 <- match events with
         | None => OK 0
         | Some ev => event_func ev t_0 init
         end ;;
   r <- integrate max_steps t_0 init e0 ;;
   OK ((t_0, init) :: fst r, snd r))%result.
End Run.

(** [a * xs + ys], componentwise, for vectors of one shape. *)
Definition axpy (a : Q) (xs ys : Flat) : result Flat :=
  if Nat.eqb (List.length xs) (List.length ys)
  then OK (map (fun xy => a * fst xy + snd xy) (combine xs ys))
  else Err ConfigurationError.

(** Modelled from the spec: the external integrator of the Runge-Kutta
    family, here one classical fourth-order step of length [dt], shortened
    so as not to pass [t_end].  The new point is stored in lowest terms. *)
Definition rk4 : Stepper :=
  fun slope t_end dt t s =>
    if Qle_bool dt 0 then Err IntegrationFailure
    else
      let h := Qred (if Qle_bool (t_end - t) dt then t_end - t else dt) in
      (k1 <- slope t s ;;
       s2 <- axpy (h / 2) k1 s ;;
       k2 <- slope (t + h / 2) s2 ;;
       s3 <- axpy (h / 2) k2 s ;;
       k3 <- slope (t + h / 2) s3 ;;
       s4 <- axpy h k3 s ;;
       k4 <- slope (t + h) s4 ;;
       a1 <- axpy 2 k2 k1 ;;
       a2 <- axpy 2 k3 a1 ;;
       a3 <- axpy 1 k4 a2 ;;
       s' <- axpy (h / 6) a3 s ;;
       OK (if Qle_bool (t_end - t) dt then t_end else Qred (t + h),
           map Qred s'))%result.

(** The penny of chapter 20 as the driver sees it. *)
Definition penny_flat (state : Penny.State Q) : Flat :=
  [Penny.y state; Penny.v state].

Definition penny_slope (system : Penny.System Q) : Slope :=
  fun t s =>
    match s with
    | [y; v] =>
        let (dydt, dvdt) := Penny.slope_func t (Penny.mkState y v) system in
        OK [dydt; dvdt]
    | _ => Err ConfigurationError
    end.

Definition penny_event (system : Penny.System Q) : Event :=
  {| event_func := fun t s =>
       match s with
       | [y; v] => OK (Penny.event_func t (Penny.mkState y v) system)
       | _ => Err ConfigurationError
       end;
     terminal := true;
     dir := Either |}.

(** [run_solve_ivp(system, slope_func, events=event_func)] for the penny,
    with a given integrator and step-count ceiling. *)
Definition penny_run_with (stepper : Stepper) (max_steps : nat)
  : result (Trajectory * Details) :=
  run_solve_ivp stepper (penny_slope Penny.system)
    (Penny.t_end Penny.system) (Penny.dt Penny.system)
    (Some (penny_event Penny.system))
    (penny_flat (Penny.init Penny.system)) 0 max_steps.

Definition penny_run : result (Trajectory * Details) :=
  penny_run_with rk4 1000.

(** An integrator that follows the penny without error: an accepted step
    moves forward by at most [dt], stays within [t_end], and lands on the
    parabola through the point it started from. *)
Definition exact_on_penny (stepper : Stepper) : Prop :=
  forall t y v t1 s1,
    t < Penny.t_end Penny.system ->
    stepper (penny_slope Penny.system) (Penny.t_end Penny.system)
            (Penny.dt Penny.system) t [y; v] = OK (t1, s1) ->
    t < t1 /\ t1 <= Penny.t_end Penny.system /\
    t1 - t <= Penny.dt Penny.system /\
    exists y1 v1,
      s1 = [y1; v1] /\
      y1 == y + v * (t1 - t) - Penny.g Penny.system / 2 * ((t1 - t) * (t1 - t)) /\
      v1 == v - Penny.g Penny.system * (t1 - t).

(** [run_solve_ivp(system, slope_func)], without the event function. *)
Definition penny_run_no_event : result (Trajectory * Details) :=
  run_solve_ivp rk4 (penny_slope Penny.system)
    (Penny.t_end Penny.system) (Penny.dt Penny.system)
    None
    (penny_flat (Penny.init Penny.system)) 0 1000.
End Solver.

(** ** Reading a trajectory *)

Module Results.
Import Solver.
Local Open Scope Q_scope.

(** [results.index] *)
Definition times (traj : Trajectory) : list Q := map fst traj.

Fixpoint last_after {X : Type} (first : X) (rest : list X) : X :=
  match rest with
  | [] => first
  | next :: rest' => last_after next rest'
  end.

(** [results.index[-1]] *)
Definition last_time (traj : Trajectory) : option Q :=
  match times traj with
  | [] => None
  | t :: rest => Some (last_after t rest)
  end.

(** [results.iloc[-1]] *)
Definition last_state (traj : Trajectory) : option Flat :=
  match traj with
  | [] => None
  | sample :: rest => Some (snd (last_after sample rest))
  end.


(** Within a millisecond of 8.818 s. *)
Definition near_impact (te : Q) : Prop :=
  (8817 # 1000) < te /\ te < (8819 # 1000).
End Results.

(** ** Chapter 7: dysfunctions *)

Module Dysfunctions.
Section Model.
Context {A : Type} `{Scalar A}.
Local Open Scope num_scope.

(** A decimal literal such as [0.025], written as the quotient [25 / 1000]
    of two integers; in binary64 the quotient rounds to the value of the
    literal. *)
Definition decimal (n d : Z) : A := of_Z n / of_Z d.

(** [# WRONG
     def carrying_capacity(system):
         system = System(alpha=0.025, beta=-0.0018)
         K = -system.alpha / system.beta
         return K] *)
Definition carrying_capacity_clobbered (system : Growth.System A) : result A :=
  let system := {| Growth.alpha := decimal 25 1000;
                   Growth.beta := - decimal 18 10000 |} in
  (K <- pydiv (- Growth.alpha system) (Growth.beta system) ;;
   OK K)%result.
End Model.

(** [sys1 = System(alpha=0.03, beta=-0.002)], the argument the notebook
    passes to the clobbering version. *)
Definition sys1_other : Growth.System Q :=
  {| Growth.alpha := 3 # 100; Growth.beta := - (2 # 1000) |}.
End Dysfunctions.

(** ** Chapter 22: setting up the baseball *)

Module BaseballSetup.
Local Open Scope num_scope.

(** [Params(x=0, y=1, angle=45, velocity=40, mass=145e-3, diameter=73e-3,
            C_d=0.33, rho=1.2, g=9.8, t_end=10)] *)
Record Params : Type := {
  x : R;
  y : R;
  angle : R;
  velocity : R;
  mass : R;
  diameter : R;
  C_d : R;
  rho : R;
  g : R;
  t_end : R
}.

(** [System(params, init=init, area=area)]: the parameters, with the
    initial state and the frontal area added. *)
Record System : Type := {
  params : Params;
  init : Baseball.State R;
  area : R
}.

(** NumPy's [deg2rad]. *)
Definition deg2rad (a : R) : R := a * PI / of_Z 180.

(** [def make_system(params):
       theta = deg2rad(params.angle)
       vx, vy = pol2cart(theta, params.velocity)
       init = State(x=params.x, y=params.y, vx=vx, vy=vy)
       area = pi * (params.diameter/2)**2
       return System(params, init = init, area = area)] *)
Definition make_system (params : Params) : System :=
  let theta := deg2rad (angle params) in
  let (vx, vy) := Polar.pol2cart theta (velocity params) in
  let init := Baseball.mkState (x params) (y params) vx vy in
  let area := PI * (diameter params / of_Z 2) ^ 2 in
  {| params := params; init := init; area := area |}.

(** What [drag_force] and [slope_func] read from the [System] object. *)
Definition view (system : System) : Baseball.System R :=
  {| Baseball.mass := mass (params system);
     Baseball.g := g (params system);
     Baseball.rho := rho (params system);
     Baseball.C_d := C_d (params system);
     Baseball.area := area system |}.

(** The speed [|V|] of a state, [vector_mag(Vector(vx, vy))]. *)
Definition speed (state : Baseball.State R) : R :=
  Vec.vector_mag (Vec.mkVector (Baseball.vx state) (Baseball.vy state)).

(** A ball one metre up, moving at 40 m/s in the 3-4-5 direction. *)
Definition moving : Baseball.State R :=
  Baseball.mkState 0%R 1%R 24%R 32%R.

(** The parameters of chapter 22. *)
Definition params22 : Params :=
  {| x := 0%R; y := 1%R; angle := 45%R; velocity := 40%R;
     mass := (145 / 1000)%R; diameter := (73 / 1000)%R;
     C_d := (33 / 100)%R; rho := (12 / 10)%R; g := (98 / 10)%R;
     t_end := 10%R |}.
End BaseballSetup.

(** ** Case study: Spider-Man, the whole model *)

Module Web.
Import Vec Units.
Local Open Scope num_scope.

(** [Params(height=381, g=9.8, mass=75, area=1, rho=1.2, v_term=60,
            length=100, angle=270-45, k=40, t_0=0, t_end=30)], the
    numbers without their units; [angle] is in degrees. *)
Record Params : Type := {
  height : R;
  g : R;
  mass : R;
  area : R;
  rho : R;
  v_term : R;
  length : R;
  angle : R;
  k : R;
  t_0 : R;
  t_end : R
}.

(** [State(P=P, V=V)] *)
Record State : Type := mkState { P : Vector R; V : Vector R }.

(** [System(params, init=init, C_d=C_d)] *)
Record System : Type := {
  params : Params;
  init : State;
  C_d : R
}.

(** [angle.to(radian)] for an angle in degrees. *)
Definition to_radian (a : R) : R := a * PI / of_Z 180.

(** [def initial_condition(params):
       height, length, angle = params.height, params.length, params.angle
       H = Vector(0, height)
       theta = angle.to(radian)
       x, y = pol2cart(theta, length)
       L = Vector(x, y)
       P = H + L
       V = Vector(0, 0) * m/s
       return State(P=P, V=V)] *)
Definition initial_condition (params : Params) : State :=
  let H := mkVector (of_Z 0) (height params) in
  let theta := to_radian (angle params) in
  let (x, y) := Polar.pol2cart theta (length params) in
  let L := mkVector x y in
  let P := vadd H L in
  let V := mkVector (of_Z 0) (of_Z 0) in
  mkState P V.

(** [def make_system(params):
       init = initial_condition(params)
       mass, g = params.mass, params.g
       rho, area, v_term = params.rho, params.area, params.v_term
       C_d = 2 * mass * g / (rho * area * v_term**2)
       return System(params, init=init, C_d=C_d)] *)
Definition make_system (params : Params) : result System :=
  let init := initial_condition params in
  (C_d <- pydiv (of_Z 2 * mass params * g params)
                (rho params * area params * v_term params ^ 2) ;;
   OK {| params := params; init := init; C_d := C_d |})%result.

(** [System(system1, t_0=t_0, t_end=t_end, init=init, k=0*N/m)]: the
    system of the second phase, after Spider-Man lets go of the web. *)
Definition release (system1 : System) (t_final : R) (init : State) : System :=
  {| params := {| height := height (params system1);
                  g := g (params system1);
                  mass := mass (params system1);
                  area := area (params system1);
                  rho := rho (params system1);
                  v_term := v_term (params system1);
                  length := length (params system1);
                  angle := angle (params system1);
                  k := of_Z 0;
                  t_0 := t_final;
                  t_end := t_final + of_Z 10 |};
     init := init;
     C_d := C_d system1 |}.

(** What [spring_force] reads from the [System] object, in the units of
    the [Params] cell: [length = 100 * m], [k = 40 * N / m] (and
    [k = 0 * N / m] once the web is let go). *)
Definition spring_view (system : System) : SpiderMan.System R :=
  {| SpiderMan.length := mkQuantity (length (params system)) metre;
     SpiderMan.k := mkQuantity (k (params system)) (udiv newton metre) |}.

(** A position or a displacement, in metres as [height = 381 * m] and
    [length = 100 * m] are. *)
Definition in_metres (L : Vector R) : QVector R := mkQVector L metre.

(** What chapter 22's [drag_force] would read from the [System] object. *)
Definition drag_view (system : System) : Baseball.System R :=
  {| Baseball.mass := mass (params system);
     Baseball.g := g (params system);
     Baseball.rho := rho (params system);
     Baseball.C_d := C_d system;
     Baseball.area := area (params system) |}.

Section Forces.
(** [magnitude] and the [hat] method of vectors are defined in [modsim]. *)
Variable magnitude : Quantity R -> R.
Variable vector_hat : Vector R -> result (Vector R).

(** The [hat] method on a vector with a unit: the unit vector of its
    components, in which the unit cancels. *)
Definition hat (L : QVector R) : result (QVector R) :=
  (h <- vector_hat (components L) ;;
   OK (mkQVector h (udiv (vunits L) (vunits L))))%result.

(** [def drag_force(V, system):
       rho, C_d, area = system.rho, system.C_d, system.area
       mag = rho * V.mag**2 * C_d * area / 2
       direction = -V.hat()
       f_drag = direction * mag
       return f_drag] *)
Definition drag_force (V : Vector R) (system : System) : result (Vector R) :=
  let mag := rho (params system) * vector_mag V ^ 2 * C_d system
             * area (params system) / of_Z 2 in
  (h <- vector_hat V ;;
   let direction := vneg h in
   let f_drag := vmul direction mag in
   OK f_drag)%result.

(** [def slope_func(state, t, system):
       P, V = state
       g, mass = system.g, system.mass
       H = Vector(0, system.height)
       L = P - H
       a_grav = Vector(0, -g)
       a_spring = spring_force(L, system) / mass
       a_drag = drag_force(V, system) / mass
       A = a_grav + a_drag + a_spring
       return V, A]

    With the parameters in the units of the [Params] cell, [a_grav] and
    [a_drag] are in [m/s**2]; [a_spring] is what [spring_force] returns,
    per kilogram, and the last sum raises [DimensionalityError] unless
    that is an acceleration too. *)
Definition slope_func (state : State) (t : R) (system : System)
  : result (Vector R * Vector R) :=
  let H := mkVector (of_Z 0) (height (params system)) in
  let L := vsub (P state) H in
  let a_grav := mkVector (of_Z 0) (- g (params system)) in
  (f_spring <- SpiderMan.spring_force magnitude hat (in_metres L)
                 (spring_view system) ;;
   let a_spring :=
     qvdiv f_spring (mkQuantity (mass (params system)) kilogram) in
   f_drag <- drag_force (V state) system ;;
   let a_drag := vdiv f_drag (mass (params system)) in
   acc <- qvadd (mkQVector (vadd a_grav a_drag) acceleration) a_spring ;;
   OK (V state, components acc))%result.

(** [def event_func(state, t, system):
       P, V = state
       return P.y] *)
Definition event_func (state : State) (t : R) (system : System) : R :=
  y (P state).
End Forces.

(** The parameters of the case study. *)
Definition params0 : Params :=
  {| height := 381%R; g := (98 / 10)%R; mass := 75%R; area := 1%R;
     rho := (12 / 10)%R; v_term := 60%R; length := 100%R;
     angle := (270 - 45)%R; k := 40%R; t_0 := 0%R; t_end := 30%R |}.

(** Falling straight down at the terminal velocity, 100 m below the point
    where the web was attached. *)
Definition falling : State :=
  mkState (mkVector 0%R 281%R) (mkVector 0%R (-60)%R).

(** The same fall 150 m and 50 m below that point: beyond the rest length
    of the web, and short of it. *)
Definition falling_beyond : State :=
  mkState (mkVector 0%R 231%R) (mkVector 0%R (-60)%R).
Definition falling_short : State :=
  mkState (mkVector 0%R 331%R) (mkVector 0%R (-60)%R).
End Web.

(** * Properties *)

Unset Implicit Arguments.

(** ** Chapter 7, exact arithmetic *)

Module GrowthFacts.
Import Growth.

Lemma Qeq_bool_false_neq (x y : Q) : ~ x == y -> Qeq_bool x y = false.
Proof.
  intro Hne. destruct (Qeq_bool x y) eqn:E; [|reflexivity].
  apply Qeq_bool_eq in E. contradiction.
Qed.

(** C5 (as amended).  For every system with [beta <> 0],
    [carrying_capacity] returns [K = -alpha / beta] and, in exact rational
    arithmetic, [growth_func_quad] vanishes at [K] for every [t]. *)
Theorem carrying_capacity_is_equilibrium :
  forall (system : System Q) (t : Q),
    ~ beta system == 0 ->
    carrying_capacity system = OK (- alpha system / beta system)%Q /\
    growth_func_quad t (- alpha system / beta system)%Q system == 0.
Proof.
  intros [a b] t Hb; simpl in *. split.
  - unfold carrying_capacity, pydiv; cbn.
    change (inject_Z 0) with 0%Q.
    rewrite (Qeq_bool_false_neq _ _ Hb). reflexivity.
  - unfold growth_func_quad; cbn. field. exact Hb.
Qed.

Lemma carrying_capacity_is_equilibrium_witness :
  carrying_capacity sys1_exact = OK (- alpha sys1_exact / beta sys1_exact)%Q /\
  growth_func_quad 0 (- alpha sys1_exact / beta sys1_exact)%Q sys1_exact == 0.
Proof.
  apply (carrying_capacity_is_equilibrium sys1_exact 0).
  vm_compute. discriminate.
Defined.

(** C5 (as stated) fails in binary64: for the notebook's own [sys1] the
    growth at the computed carrying capacity is 2^-54, not zero. *)
Lemma carrying_capacity_float_residue :
  exists K : float,
    carrying_capacity sys1 = OK K /\
    growth_func_quad 0%float K sys1 = 5.5511151231257827e-17%float /\
    neqb (growth_func_quad 0%float K sys1) 0%float = false.
Proof.
  exists 13.888888888888889%float.
  repeat split; vm_compute; reflexivity.
Qed.

End GrowthFacts.

(** ** Chapters 20 and 22: the models are autonomous *)

Module Autonomy.

(** C10.  The penny and baseball slope functions and the event functions do
    not depend on their time argument, whatever the scalar type and
    whatever [vector_hat] does. *)
Theorem slope_and_event_ignore_time :
  forall (A : Type) (SA : Scalar A) (QA : HasSqrt A)
         (vector_hat : Vec.Vector A -> result (Vec.Vector A))
         (t1 t2 : A),
    (forall (state : Penny.State A) (system : Penny.System A),
        Penny.slope_func t1 state system = Penny.slope_func t2 state system) /\
    (forall (state : Baseball.State A) (system : Baseball.System A),
        Baseball.slope_func vector_hat t1 state system =
        Baseball.slope_func vector_hat t2 state system) /\
    (forall (state : Baseball.State A) (system : Baseball.System A),
        Baseball.event_func t1 state system =
        Baseball.event_func t2 state system) /\
    (forall (state : Penny.State A) (system : Penny.System A),
        Penny.event_func t1 state system = Penny.event_func t2 state system).
Proof.
  intros A SA QA vector_hat t1 t2.
  split; [|split; [|split]]; intros state system.
  - unfold Penny.slope_func. reflexivity.
  - unfold Baseball.slope_func. reflexivity.
  - unfold Baseball.event_func. reflexivity.
  - unfold Penny.event_func. reflexivity.
Qed.

End Autonomy.

(** ** Vectors over the reals *)

Module VecFacts.
Import Vec.
Local Open Scope R_scope.

Lemma vector_mag_R (a : Vector R) :
  vector_mag a = sqrt (x a * x a + y a * y a).
Proof. reflexivity. Qed.

Lemma sum_sq_nonneg (a b : R) : 0 <= a * a + b * b.
Proof. nra. Qed.

Lemma vector_mag_nonneg (a : Vector R) : 0 <= vector_mag a.
Proof. rewrite vector_mag_R. apply sqrt_pos. Qed.

Lemma vector_mag_sq (a : Vector R) :
  vector_mag a * vector_mag a = x a * x a + y a * y a.
Proof. rewrite vector_mag_R. apply sqrt_sqrt, sum_sq_nonneg. Qed.

Lemma vector_mag_smul (c : R) (a : Vector R) :
  vector_mag (smul c a) = Rabs c * vector_mag a.
Proof.
  rewrite !vector_mag_R. cbn.
  replace (c * x a * (c * x a) + c * y a * (c * y a))
    with (Rsqr c * (x a * x a + y a * y a)) by (unfold Rsqr; ring).
  rewrite sqrt_mult_alt by apply Rle_0_sqr.
  rewrite sqrt_Rsqr_abs. reflexivity.
Qed.

Lemma vmul_smul (a : Vector R) (c : R) : vmul a c = smul c a.
Proof. unfold vmul, smul; cbn. f_equal; ring. Qed.

Lemma vneg_smul (a : Vector R) : vneg a = smul (-1) a.
Proof. unfold vneg, smul; cbn. f_equal; ring. Qed.

Lemma smul_smul (c d : R) (a : Vector R) : smul c (smul d a) = smul (c * d) a.
Proof. unfold smul; cbn. f_equal; ring. Qed.

Lemma vdiv_smul (a : Vector R) (c : R) : vdiv a c = smul (/ c) a.
Proof. unfold vdiv, smul; cbn. f_equal; unfold Rdiv; ring. Qed.

Lemma vector_mag_unit (a : Vector R) :
  vector_mag a <> 0 -> vector_mag (vdiv a (vector_mag a)) = 1.
Proof.
  intro Hnz. rewrite vdiv_smul, vector_mag_smul.
  pose proof (vector_mag_nonneg a) as Hge.
  rewrite Rabs_right.
  - field. exact Hnz.
  - apply Rle_ge. left. apply Rinv_0_lt_compat. lra.
Qed.

Lemma smul_eq_zero (c : R) (a : Vector R) :
  smul c a = vzero -> c = 0 \/ vector_mag a = 0.
Proof.
  intro Hz. destruct (Req_dec_T c 0) as [Hc|Hc]; [left; exact Hc|right].
  unfold smul, vzero in Hz; cbn in Hz. injection Hz as Hx Hy.
  apply Rmult_integral in Hx. apply Rmult_integral in Hy.
  destruct Hx as [Hx|Hx]; [contradiction|].
  destruct Hy as [Hy|Hy]; [contradiction|].
  rewrite vector_mag_R, Hx, Hy.
  replace (0 * 0 + 0 * 0) with 0 by ring. apply sqrt_0.
Qed.

(** Done in binary64, as NumPy divides, the notebook's
    [A / vector_mag(A)] raises nothing at the zero vector: both components
    come out as NaN. *)
Lemma hat_by_division_of_zero_in_binary64 :
  exists v : Vector float,
    hat_by_division (mkVector 0%float 0%float) = OK v /\
    PrimFloat.is_nan (x v) = true /\ PrimFloat.is_nan (y v) = true.
Proof.
  eexists. split; [reflexivity|]. split; vm_compute; reflexivity.
Qed.

End VecFacts.

(** ** Chapter 22: drag on the baseball *)

Module BaseballFacts.
Import Vec Baseball VecFacts.
Local Open Scope R_scope.

Section WithHat.
Variable vector_hat : Vector R -> result (Vector R).

(** What chapter 22 documents of [vector_hat]: for a vector that has a
    direction it is the vector divided by its magnitude. *)
Hypothesis vector_hat_nonzero :
  forall v, vector_mag v <> 0 -> vector_hat v = OK (vdiv v (vector_mag v)).

(** C9.  For a velocity [V] of nonzero magnitude, [drag_force] is
    [-(rho * C_d * area / 2) * |V|^2 * vector_hat V]; with non-negative
    physical parameters its magnitude is [rho * |V|^2 * C_d * area / 2] and
    it is a non-positive multiple of [V]. *)
Theorem drag_force_opposes_velocity :
  forall (V : Vector R) (system : System R),
    vector_mag V <> 0 ->
    exists hat f : Vector R,
      vector_hat V = OK hat /\
      drag_force vector_hat V system = OK f /\
      f = smul (- (rho system * C_d system * area system / 2) * vector_mag V ^ 2)
               hat /\
      vector_mag f
        = Rabs (rho system * vector_mag V ^ 2 * C_d system * area system / 2) /\
      (0 <= rho system * C_d system * area system ->
       vector_mag f = rho system * vector_mag V ^ 2 * C_d system * area system / 2 /\
       exists c : R, 0 <= c /\ f = smul (- c) V).
Proof.
  intros V system Hnz.
  pose proof (vector_mag_nonneg V) as Hge.
  exists (vdiv V (vector_mag V)).
  unfold drag_force. rewrite (vector_hat_nonzero _ Hnz). cbn [bind].
  eexists. split; [reflexivity|]. split; [reflexivity|].
  set (m := vector_mag V) in *.
  assert (Hnorm : vector_mag
            (smul (rho system * npow m 2 * C_d system * area system / of_Z 2)%num
                  (vneg (vdiv V m)))
          = Rabs (rho system * m ^ 2 * C_d system * area system / 2)).
  { rewrite vneg_smul, smul_smul, vector_mag_smul.
    pose proof (vector_mag_unit V Hnz) as Hunit. fold m in Hunit.
    rewrite Hunit. cbn.
    replace (rho system * (m * m) * C_d system * area system / 2 * -1)
      with (- (rho system * (m * (m * 1)) * C_d system * area system / 2))
      by field.
    rewrite Rabs_Ropp. ring. }
  split; [|split; [exact Hnorm|]].
  - rewrite vneg_smul, !vdiv_smul, !smul_smul. cbn. f_equal. field. exact Hnz.
  - intro Hpos. split.
    + rewrite Hnorm. apply Rabs_right. apply Rle_ge.
      replace (rho system * m ^ 2 * C_d system * area system / 2)
        with (rho system * C_d system * area system * (m * m / 2)) by field.
      apply Rmult_le_pos; [exact Hpos|]. nra.
    + exists (rho system * C_d system * area system * m / 2). split.
      * apply Rmult_le_pos; [|lra]. apply Rmult_le_pos; assumption.
      * rewrite vneg_smul, vdiv_smul, !smul_smul. cbn. f_equal. field. exact Hnz.
Qed.
End WithHat.

Lemma V_test_mag : vector_mag V_test = 40.
Proof.
  rewrite vector_mag_R. cbn.
  replace (24 * 24 + 32 * 32) with (40 * 40) by ring.
  apply sqrt_square. lra.
Qed.

Lemma drag_force_opposes_velocity_witness :
  exists hat f : Vector R,
    hat_by_division V_test = OK hat /\
    drag_force hat_by_division V_test system_test = OK f /\
    f = smul (- (rho system_test * C_d system_test * area system_test / 2)
              * vector_mag V_test ^ 2) hat /\
    vector_mag f = rho system_test * vector_mag V_test ^ 2 * C_d system_test
                   * area system_test / 2 /\
    exists c : R, 0 <= c /\ f = smul (- c) V_test.
Proof.
  assert (Hhat : forall v : Vector R,
             vector_mag v <> 0 -> hat_by_division v = OK (vdiv v (vector_mag v))).
  { intros v _. reflexivity. }
  assert (Hnz : vector_mag V_test <> 0) by (rewrite V_test_mag; lra).
  assert (Hphys : 0 <= rho system_test * C_d system_test * area system_test).
  { cbn. lra. }
  destruct (drag_force_opposes_velocity hat_by_division Hhat V_test system_test Hnz)
    as [hat [f [Hh [Hf [Heq [_ Hmag]]]]]].
  destruct (Hmag Hphys) as [Hnorm Hopp].
  exists hat, f. repeat split; assumption.
Defined.

End BaseballFacts.

(** ** Spider-Man: the force of the webbing *)

Module SpiderManFacts.
Import Vec Units SpiderMan VecFacts.
Local Open Scope R_scope.

Lemma unit_eqb_refl (u : Unit) : unit_eqb u u = true.
Proof. unfold unit_eqb. rewrite !Z.eqb_refl. reflexivity. Qed.

Lemma umul_cancelled (u : Unit) : umul (udiv u u) dimensionless = dimensionless.
Proof. unfold umul, udiv, dimensionless; cbn. f_equal; lia. Qed.

Lemma umul_after_cancelling (u v : Unit) : umul (udiv u u) v = v.
Proof. destruct v. unfold umul, udiv; cbn. f_equal; lia. Qed.

Lemma Rltb_true (a b : R) : Rltb a b = true <-> a < b.
Proof.
  unfold Rltb. destruct (Rlt_dec a b) as [Hlt|Hge]; split; intro H.
  - exact Hlt.
  - reflexivity.
  - discriminate.
  - contradiction.
Qed.

Lemma Rltb_false (a b : R) : Rltb a b = false <-> b <= a.
Proof.
  unfold Rltb. destruct (Rlt_dec a b) as [Hlt|Hge]; split; intro H.
  - discriminate.
  - lra.
  - lra.
  - reflexivity.
Qed.

Section WithHelpers.
Variable magnitude : Quantity R -> R.
Variable vector_hat : QVector R -> result (QVector R).

(** [magnitude] gives the number of a quantity: it strips the unit and
    keeps the sign, as the attribute of the same name does in chapter 22
    ([mps.magnitude]).  The case study counts on it: the spring constant
    is to be 0 when the cord is compressed. *)
Hypothesis magnitude_is_number : forall q, magnitude q = number q.

Hypothesis vector_hat_nonzero :
  forall L : QVector R,
    vector_mag (components L) <> 0 -> vector_hat L = qhat_by_division L.

Lemma extension_of (L : QVector R) (system : System R) :
  vunits L = units (length system) ->
  qsub (qmag L) (length system)
  = OK (mkQuantity (vector_mag (components L) - number (length system))
                   (vunits L)).
Proof.
  intro Hu. unfold qsub, qmag. cbn [units number].
  rewrite <- Hu, unit_eqb_refl. reflexivity.
Qed.

Lemma guard_iff_slack (L : QVector R) (system : System R) :
  (magnitude (mkQuantity (vector_mag (components L) - number (length system))%R
                         (vunits L)) <? of_Z 0)%num = true
  <-> vector_mag (components L) < number (length system).
Proof. rewrite magnitude_is_number. cbn. rewrite Rltb_true. lra. Qed.

(** On a slack cable the guard is true and the force is the bare zero
    vector. *)
Lemma spring_force_slack (L : QVector R) (system : System R) :
  vector_mag (components L) <> 0 ->
  vunits L = units (length system) ->
  vector_mag (components L) < number (length system) ->
  spring_force magnitude vector_hat L system
  = OK (mkQVector vzero dimensionless).
Proof.
  intros Hnz Hu Hslack.
  unfold spring_force. rewrite (extension_of L system Hu). cbn [bind].
  rewrite (vector_hat_nonzero L Hnz). unfold qhat_by_division. cbn [bind].
  apply guard_iff_slack in Hslack. rewrite Hslack.
  unfold qvmul, qvneg, qvdiv, qmag, bare. cbn [components vunits number units].
  f_equal. f_equal.
  - unfold vmul, vneg, vdiv, vzero; cbn. f_equal; ring.
  - apply umul_cancelled.
Qed.

(** Otherwise the guard is false and the force is Hooke's. *)
Lemma spring_force_taut (L : QVector R) (system : System R) :
  vector_mag (components L) <> 0 ->
  vunits L = units (length system) ->
  number (length system) <= vector_mag (components L) ->
  spring_force magnitude vector_hat L system
  = OK (mkQVector
          (vmul (vneg (vdiv (components L) (vector_mag (components L))))
                (number (k system)
                 * (vector_mag (components L) - number (length system))))
          (umul (units (k system)) (vunits L))).
Proof.
  intros Hnz Hu Htaut.
  unfold spring_force. rewrite (extension_of L system Hu). cbn [bind].
  rewrite (vector_hat_nonzero L Hnz). unfold qhat_by_division. cbn [bind].
  assert (Hoff : (magnitude
                    (mkQuantity
                       (vector_mag (components L) - number (length system))%R
                       (vunits L)) <? of_Z 0)%num = false).
  { rewrite magnitude_is_number. cbn. apply Rltb_false. lra. }
  rewrite Hoff.
  unfold qvmul, qvneg, qvdiv, qmag, qmul. cbn [components vunits number units].
  f_equal. f_equal. apply umul_after_cancelling.
Qed.

(** C8 (as amended).  [magnitude] keeps the sign of the extension, so the
    guard is true exactly when the cable is slack.  Then [mag] is the bare
    0 and [spring_force] returns the zero vector, without a unit.  When
    the cable is not slack, [spring_force] is [k * (|L| - length)] times
    [-vector_hat L], a force of magnitude [|k| * (|L| - length)] in the
    unit of [k] times that of [L]. *)
Theorem spring_force_guard_fires_when_slack :
  forall (L : QVector R) (system : System R),
    vector_mag (components L) <> 0 ->
    vunits L = units (length system) ->
    exists extension : Quantity R,
      qsub (qmag L) (length system) = OK extension /\
      number extension = vector_mag (components L) - number (length system) /\
      ((magnitude extension <? of_Z 0)%num = true <->
       vector_mag (components L) < number (length system)) /\
      (vector_mag (components L) < number (length system) ->
       spring_force magnitude vector_hat L system
       = OK (mkQVector vzero dimensionless)) /\
      (number (length system) <= vector_mag (components L) ->
       exists f : QVector R,
         spring_force magnitude vector_hat L system = OK f /\
         components f
         = vmul (vneg (vdiv (components L) (vector_mag (components L))))
                (number (k system) * number extension) /\
         vunits f = umul (units (k system)) (vunits L) /\
         vector_mag (components f)
         = Rabs (number (k system)) * number extension).
Proof.
  intros L system Hnz Hu.
  eexists. split; [exact (extension_of L system Hu)|].
  cbn [number]. split; [reflexivity|]. split; [apply guard_iff_slack|].
  split; [exact (spring_force_slack L system Hnz Hu)|].
  intro Htaut. eexists. split; [exact (spring_force_taut L system Hnz Hu Htaut)|].
  cbn [components vunits]. split; [reflexivity|]. split; [reflexivity|].
  rewrite vmul_smul, vneg_smul, smul_smul, vector_mag_smul.
  rewrite (vector_mag_unit (components L) Hnz).
  set (ext := vector_mag (components L) - number (length system)).
  change (nmul (number (k system)) ext) with (number (k system) * ext).
  replace (number (k system) * ext * -1) with (- (number (k system) * ext))
    by ring.
  rewrite Rabs_Ropp, Rabs_mult, (Rabs_right ext); [ring|].
  unfold ext. lra.
Qed.

(** Quantities whose units differ cannot be subtracted: for a
    displacement that is not in the unit of [length], [spring_force]
    raises [DimensionalityError] before anything else. *)
Lemma spring_force_needs_one_unit (L : QVector R) (system : System R) :
  unit_eqb (vunits L) (units (length system)) = false ->
  spring_force magnitude vector_hat L system = Err DimensionalityError.
Proof.
  intro Hu. unfold spring_force, qsub, qmag. cbn [units]. rewrite Hu.
  reflexivity.
Qed.
End WithHelpers.

Lemma straight_down_mag (d : R) :
  0 < d -> vector_mag (mkVector 0 (- d)) = d.
Proof.
  intro Hd. rewrite vector_mag_R. cbn.
  replace (0 * 0 + - d * - d) with (d * d) by ring.
  apply sqrt_square. lra.
Qed.

Lemma L_slack_mag : vector_mag (components L_slack) = 50.
Proof.
  change (components L_slack) with (mkVector 0 (Ropp 50)).
  apply straight_down_mag. lra.
Qed.

Lemma L_test_mag : vector_mag (components L_test) = 101.
Proof.
  change (components L_test) with (mkVector 0 (Ropp 101)).
  apply straight_down_mag. lra.
Qed.

Lemma spring_force_guard_fires_when_slack_witness :
  spring_force (@number R) qhat_by_division L_slack system1
  = OK (mkQVector vzero dimensionless) /\
  exists f : QVector R,
    spring_force (@number R) qhat_by_division L_test system1 = OK f /\
    vunits f = newton /\
    vector_mag (components f) = 40.
Proof.
  assert (Hmag : forall q : Quantity R, number q = number q) by reflexivity.
  assert (Hhat : forall L : QVector R,
             vector_mag (components L) <> 0
             -> qhat_by_division L = qhat_by_division L) by reflexivity.
  split.
  - assert (Hnz : vector_mag (components L_slack) <> 0)
      by (rewrite L_slack_mag; lra).
    assert (Hu : vunits L_slack = units (length system1)) by reflexivity.
    destruct (spring_force_guard_fires_when_slack (@number R) qhat_by_division
                Hmag Hhat L_slack system1 Hnz Hu)
      as [extension [_ [_ [_ [Hslack _]]]]].
    apply Hslack. rewrite L_slack_mag. cbn. lra.
  - assert (Hnz : vector_mag (components L_test) <> 0)
      by (rewrite L_test_mag; lra).
    assert (Hu : vunits L_test = units (length system1)) by reflexivity.
    destruct (spring_force_guard_fires_when_slack (@number R) qhat_by_division
                Hmag Hhat L_test system1 Hnz Hu)
      as [extension [_ [Hext [_ [_ Htaut]]]]].
    destruct Htaut as [f [Hf [_ [Hunit Hsize]]]].
    { rewrite L_test_mag. cbn. lra. }
    exists f. split; [exact Hf|]. split; [rewrite Hunit; reflexivity|].
    rewrite Hsize, Hext, L_test_mag. cbn.
    rewrite Rabs_right; lra.
Defined.

(** C8 (as stated) fails on a slack cable.  With 50 m of the 100 m web
    ([k = 40 N/m]) the extension is -50 m, [magnitude] returns -50, the
    guard is true and the force is the zero vector, where the claim has a
    force of [k * (|L| - length) = -2000]. *)
Lemma spring_force_zero_on_slack_cable :
  vector_mag (components L_slack) <> 0 /\
  vector_mag (components L_slack) < number (length system1) /\
  number (k system1)
  * (vector_mag (components L_slack) - number (length system1)) = -2000 /\
  (exists extension : Quantity R,
      qsub (qmag L_slack) (length system1) = OK extension /\
      number extension = -50 /\
      (number extension <? of_Z 0)%num = true) /\
  spring_force (@number R) qhat_by_division L_slack system1
  = OK (mkQVector vzero dimensionless).
Proof.
  assert (Hext : qsub (qmag L_slack) (length system1)
                 = OK (mkQuantity (-50) metre)).
  { unfold qsub, qmag. cbn [units number vunits L_slack system1 length].
    cbn [unit_eqb metre metres kilograms seconds Z.eqb Pos.eqb andb].
    f_equal. f_equal.
    change (vector_mag (mkVector 0 (-50)) - 100 = -50).
    change (mkVector 0 (-50)) with (components L_slack).
    rewrite L_slack_mag. lra. }
  assert (Hneg : ((-50)%R <? of_Z 0)%num = true).
  { cbn. apply Rltb_true. lra. }
  rewrite L_slack_mag. split; [lra|]. split; [cbn; lra|].
  split; [cbn; lra|]. split.
  - eexists. split; [exact Hext|]. split; [reflexivity|exact Hneg].
  - unfold spring_force. rewrite Hext. cbn [bind number].
    rewrite Hneg. unfold qhat_by_division. cbn [bind].
    unfold qvmul, qvneg, qvdiv, qmag, bare.
    cbn [components vunits number units].
    f_equal. f_equal.
    unfold vmul, vneg, vdiv, vzero; cbn. f_equal; ring.
Qed.

End SpiderManFacts.

(** ** Chapter 22: polar round trip *)

Module PolarFacts.
Import Vec Polar VecFacts.
Local Open Scope R_scope.

Lemma atan2_origin : atan2 0 0 = 0.
Proof.
  unfold atan2.
  destruct (Rlt_dec 0 0) as [H|_]; [lra|]. reflexivity.
Qed.

Lemma atan2_pos_x (b a : R) : 0 < a -> atan2 b a = atan (b / a).
Proof.
  intro Ha. unfold atan2. destruct (Rlt_dec 0 a); [reflexivity|contradiction].
Qed.

Lemma atan2_neg_x_up (b a : R) :
  a < 0 -> 0 <= b -> atan2 b a = atan (b / a) + PI.
Proof.
  intros Ha Hb. unfold atan2.
  destruct (Rlt_dec 0 a); [lra|].
  destruct (Rlt_dec a 0); [|contradiction].
  destruct (Rle_dec 0 b); [reflexivity|contradiction].
Qed.

Lemma atan2_neg_x_down (b a : R) :
  a < 0 -> b < 0 -> atan2 b a = atan (b / a) - PI.
Proof.
  intros Ha Hb. unfold atan2.
  destruct (Rlt_dec 0 a); [lra|].
  destruct (Rlt_dec a 0); [|contradiction].
  destruct (Rle_dec 0 b); [lra|reflexivity].
Qed.

Lemma atan2_zero_x (b : R) :
  atan2 b 0 = if Rlt_dec 0 b then PI / 2
              else if Rlt_dec b 0 then - (PI / 2) else 0.
Proof.
  unfold atan2.
  destruct (Rlt_dec 0 0) as [H|_]; [lra|]. reflexivity.
Qed.

Lemma ratio_is_tan (r phi : R) :
  0 < r -> cos phi <> 0 -> r * sin phi / (r * cos phi) = tan phi.
Proof. intros Hr Hc. unfold tan. field. split; lra. Qed.

(** On the principal range the angle is recovered exactly. *)
Lemma atan2_principal (r theta : R) :
  0 < r -> - PI < theta <= PI ->
  atan2 (r * sin theta) (r * cos theta) = theta.
Proof.
  intros Hr [Hlo Hhi].
  pose proof PI_RGT_0 as Hpi.
  destruct (Rlt_dec theta (- (PI / 2))) as [Hc1|Hc1].
  - (* third quadrant *)
    assert (Hcos : cos theta < 0).
    { rewrite <- cos_neg. apply cos_lt_0; lra. }
    assert (Hsin : sin theta < 0) by (apply sin_lt_0_var; lra).
    rewrite atan2_neg_x_down by nra.
    assert (Hs : sin theta = - sin (theta + PI)) by (rewrite neg_sin; ring).
    assert (Hk : cos theta = - cos (theta + PI)) by (rewrite neg_cos; ring).
    assert (Hcp : 0 < cos (theta + PI)) by lra.
    replace (r * sin theta / (r * cos theta)) with (tan (theta + PI)).
    + rewrite atan_tan by lra. ring.
    + unfold tan. rewrite Hs, Hk. field. split; lra.
  - destruct (Req_dec_T theta (- (PI / 2))) as [Hc2|Hc2].
    + subst theta. rewrite cos_neg, sin_neg, cos_PI2, sin_PI2.
      replace (r * 0) with 0 by ring.
      rewrite atan2_zero_x.
      destruct (Rlt_dec 0 (r * - (1))); [lra|].
      destruct (Rlt_dec (r * - (1)) 0); [reflexivity|lra].
    + destruct (Rlt_dec theta (PI / 2)) as [Hc3|Hc3].
      * (* right half plane *)
        assert (Hcos : 0 < cos theta) by (apply cos_gt_0; lra).
        rewrite atan2_pos_x by nra.
        rewrite ratio_is_tan by lra.
        apply atan_tan. lra.
      * destruct (Req_dec_T theta (PI / 2)) as [Hc4|Hc4].
        -- subst theta. rewrite cos_PI2, sin_PI2.
           replace (r * 0) with 0 by ring.
           rewrite atan2_zero_x.
           destruct (Rlt_dec 0 (r * 1)); [reflexivity|lra].
        -- (* second quadrant *)
           assert (Hcos : cos theta < 0) by (apply cos_lt_0; lra).
           assert (Hsin : 0 <= sin theta) by (apply sin_ge_0; lra).
           rewrite atan2_neg_x_up by nra.
           assert (Hs : sin theta = - sin (theta - PI)).
           { replace theta with ((theta - PI) + PI) at 1 by ring.
             rewrite neg_sin. ring. }
           assert (Hk : cos theta = - cos (theta - PI)).
           { replace theta with ((theta - PI) + PI) at 1 by ring.
             rewrite neg_cos. ring. }
           assert (Hcp : 0 < cos (theta - PI)) by lra.
           replace (r * sin theta / (r * cos theta)) with (tan (theta - PI)).
           ++ rewrite atan_tan by lra. ring.
           ++ unfold tan. rewrite Hs, Hk. field. split; lra.
Qed.

Lemma trig_period_nat (theta : R) (n : nat) :
  cos (theta + 2 * INR n * PI) = cos theta /\
  sin (theta + 2 * INR n * PI) = sin theta.
Proof. split; [apply cos_period|apply sin_period]. Qed.

Lemma trig_period_Z (theta : R) (k : Z) :
  cos (theta + 2 * IZR k * PI) = cos theta /\
  sin (theta + 2 * IZR k * PI) = sin theta.
Proof.
  destruct (Z_le_gt_dec 0 k) as [Hk|Hk].
  - rewrite <- (Z2Nat.id k Hk), <- INR_IZR_INZ. apply trig_period_nat.
  - assert (Hn : (0 <= - k)%Z) by lia.
    destruct (trig_period_nat (theta + 2 * IZR k * PI) (Z.to_nat (- k)))
      as [Hc Hs].
    rewrite INR_IZR_INZ, (Z2Nat.id _ Hn), opp_IZR in Hc, Hs.
    replace (theta + 2 * IZR k * PI + 2 * - IZR k * PI) with theta in Hc, Hs
      by ring.
    split; congruence.
Qed.

(** Every angle has a representative in (-pi, pi]. *)
Lemma principal_representative (theta : R) :
  exists k : Z, - PI < theta + 2 * IZR k * PI <= PI.
Proof.
  pose proof PI_RGT_0 as Hpi.
  set (q := (- theta - PI) / (2 * PI)).
  destruct (archimed q) as [Hup Hlow].
  exists (up q).
  assert (Hq : q * (2 * PI) = - theta - PI) by (unfold q; field; lra).
  split; nra.
Qed.

Lemma vector_mag_from_polar (theta r : R) :
  0 <= r -> vector_mag (from_polar theta r) = r.
Proof.
  intro Hr. unfold from_polar, pol2cart. rewrite vector_mag_R. cbn.
  replace (r * cos theta * (r * cos theta) + r * sin theta * (r * sin theta))
    with (Rsqr r * (Rsqr (sin theta) + Rsqr (cos theta)))
    by (unfold Rsqr; ring).
  rewrite sin2_cos2, Rmult_1_r. apply sqrt_Rsqr. exact Hr.
Qed.

(** C7 (as amended).  For [r >= 0] the magnitude of [pol2cart(theta, r)] is
    [r].  For [r > 0] its angle is the representative of [theta] modulo
    [2 pi] that lies in (-pi, pi].  Over the reals both are recovered
    exactly, hence within every tolerance.  Nothing is said of the angle
    for [r = 0]. *)
Theorem polar_round_trip :
  forall theta r : R,
    0 <= r ->
    vector_mag (from_polar theta r) = r /\
    (0 < r ->
     - PI < vector_angle (from_polar theta r) <= PI /\
     exists k : Z, vector_angle (from_polar theta r) = theta + 2 * IZR k * PI).
Proof.
  intros theta r Hr. split; [apply vector_mag_from_polar; exact Hr|].
  intro Hpos.
  destruct (principal_representative theta) as [k Hk].
  destruct (trig_period_Z theta k) as [Hc Hs].
  assert (Hang : vector_angle (from_polar theta r) = theta + 2 * IZR k * PI).
  { unfold vector_angle, from_polar, pol2cart; cbn.
    rewrite <- Hc, <- Hs. apply atan2_principal; assumption. }
  rewrite Hang. split; [exact Hk|]. exists k. reflexivity.
Qed.

Lemma polar_round_trip_witness :
  vector_mag (from_polar 0 1) = 1 /\
  - PI < vector_angle (from_polar 0 1) <= PI /\
  exists k : Z, vector_angle (from_polar 0 1) = 0 + 2 * IZR k * PI.
Proof.
  assert (H1 : 0 <= 1) by lra.
  assert (H2 : 0 < 1) by lra.
  destruct (polar_round_trip 0 1 H1) as [Hmag Hang].
  destruct (Hang H2) as [Hrange Hk].
  split; [exact Hmag|]. split; [exact Hrange|exact Hk].
Defined.

Lemma mod_2pi_small (theta : R) : 0 <= theta < 2 * PI -> mod_2pi theta = theta.
Proof.
  intros [Hlo Hhi]. pose proof PI_RGT_0 as Hpi. unfold mod_2pi.
  assert (Hq : theta / (2 * PI) * (2 * PI) = theta) by (field; lra).
  rewrite <- (Int_part_spec (theta / (2 * PI)) 0).
  - ring.
  - split.
    + assert (theta / (2 * PI) < 1); [|lra].
      apply Rmult_lt_reg_r with (2 * PI); lra.
    + assert (0 <= theta / (2 * PI)); [|lra].
      apply Rmult_le_reg_r with (2 * PI); lra.
Qed.

(** C7 (as stated) fails twice.  At [r = 0] the angle is lost: the round
    trip of [(theta, r) = (1, 0)] gives angle 0, not 1.  And [atan2] ranges
    over (-pi, pi], not [0, 2 pi): the round trip of [(3 pi / 2, 1)] gives
    [- pi / 2], which differs from [3 pi / 2 mod 2 pi] by a full turn. *)
Lemma polar_round_trip_loses_angle :
  (to_polar (from_polar 1 0) = (0, 0) /\ mod_2pi 1 = 1) /\
  (to_polar (from_polar (3 * (PI / 2)) 1) = (1, - (PI / 2)) /\
   mod_2pi (3 * (PI / 2)) = 3 * (PI / 2)).
Proof.
  pose proof PI_RGT_0 as Hpi. pose proof PI2_1 as Hpi2.
  split; split.
  - unfold to_polar. f_equal.
    + apply vector_mag_from_polar. lra.
    + unfold vector_angle, from_polar, pol2cart; cbn.
      rewrite !Rmult_0_l. apply atan2_origin.
  - apply mod_2pi_small. lra.
  - unfold to_polar. f_equal.
    + apply vector_mag_from_polar. lra.
    + unfold vector_angle, from_polar, pol2cart; cbn.
      rewrite cos_3PI2, sin_3PI2, Rmult_0_r, atan2_zero_x.
      destruct (Rlt_dec 0 (1 * -1)); [lra|].
      destruct (Rlt_dec (1 * -1) 0); [reflexivity|lra].
  - apply mod_2pi_small. lra.
Qed.

End PolarFacts.

(** ** Chapter 17: interpolation through the samples *)

Module InterpFacts.
Import Interp.
Local Open Scope Q_scope.

Lemma ltb_true (a b : Q) : nltb a b = true <-> a < b.
Proof.
  cbn. rewrite negb_true_iff. split.
  - intro Hf. apply Qnot_le_lt. intro Hle.
    apply Qle_bool_iff in Hle. congruence.
  - intro Hlt. destruct (Qle_bool b a) eqn:E; [|reflexivity].
    apply Qle_bool_iff in E. exfalso. exact (Qlt_not_le _ _ Hlt E).
Qed.

Lemma ltb_false (a b : Q) : nltb a b = false <-> b <= a.
Proof.
  cbn. rewrite negb_false_iff. apply Qle_bool_iff.
Qed.

Lemma eqb_true (a b : Q) : neqb a b = true <-> a == b.
Proof. cbn. apply Qeq_bool_iff. Qed.

Lemma increasing_cons (p q : Q * Q) (rest : Series Q) :
  increasing (p :: q :: rest) = true ->
  fst p < fst q /\ increasing (q :: rest) = true.
Proof.
  destruct p as [t0 v0], q as [t1 v1]. cbn [increasing fst].
  rewrite andb_true_iff, ltb_true. tauto.
Qed.

(** In an increasing series every later sample is later in time. *)
Lemma later_is_greater (p : Q * Q) (rest : Series Q) :
  increasing (p :: rest) = true ->
  forall i ti vi, nth_error rest i = Some (ti, vi) -> fst p < ti.
Proof.
  revert p. induction rest as [|q rest IH]; intros p Hinc i ti vi Hi.
  - destruct i; discriminate.
  - apply increasing_cons in Hinc. destruct Hinc as [Hpq Hinc].
    destruct i as [|i]; cbn in Hi.
    + injection Hi as Hq. rewrite Hq in Hpq. exact Hpq.
    + apply Qlt_trans with (fst q); [exact Hpq|].
      exact (IH q Hinc i ti vi Hi).
Qed.

Lemma line_at_left (t0 v0 t1 v1 t : Q) :
  t == t0 -> line_through t0 v0 t1 v1 t == v0.
Proof.
  intro Ht. unfold line_through; cbn. rewrite Ht.
  setoid_replace (t0 - t0) with 0 by ring. ring.
Qed.

Lemma line_at_right (t0 v0 t1 v1 t : Q) :
  t0 < t1 -> t == t1 -> line_through t0 v0 t1 v1 t == v1.
Proof.
  intros Hlt Ht. unfold line_through; cbn. rewrite Ht.
  field. intro Hz. apply (Qlt_irrefl t0).
  setoid_replace t0 with t1 at 2; [exact Hlt|].
  symmetry. apply Qplus_inj_r with (- t0).
  setoid_replace (t0 + - t0) with 0 by ring. exact Hz.
Qed.

Lemma on_sample (series : Series Q) (t : Q) :
  increasing series = true ->
  forall i ti vi,
    nth_error series i = Some (ti, vi) -> t == ti ->
    exists r, on_polygon series t = Some r /\ r == vi.
Proof.
  induction series as [|[t0 v0] rest IH]; intros Hinc i ti vi Hi Ht.
  - destruct i; discriminate.
  - destruct rest as [|[t1 v1] rest'].
    + destruct i as [|i]; [|destruct i; discriminate].
      injection Hi as Ht0 Hv0. subst ti vi. cbn [on_polygon].
      apply eqb_true in Ht. rewrite Ht. exists v0. split; [reflexivity|].
      reflexivity.
    + pose proof (increasing_cons _ _ _ Hinc) as [Hlt Hinc'].
      cbn [fst] in Hlt. cbn [on_polygon].
      destruct i as [|i]; cbn [nth_error] in Hi.
      * injection Hi as Ht0 Hv0. subst ti vi.
        assert (E1 : nltb t t0 = false) by (apply ltb_false; rewrite Ht; apply Qle_refl).
        assert (E2 : nltb t1 t = false).
        { apply ltb_false. rewrite Ht. apply Qlt_le_weak. exact Hlt. }
        rewrite E1, E2. eexists. split; [reflexivity|].
        apply line_at_left. exact Ht.
      * assert (Hge : t0 < ti).
        { exact (later_is_greater (t0, v0) _ Hinc i ti vi Hi). }
        assert (E1 : nltb t t0 = false).
        { apply ltb_false. rewrite Ht. apply Qlt_le_weak. exact Hge. }
        rewrite E1.
        destruct (nltb t1 t) eqn:E2.
        -- exact (IH Hinc' i ti vi Hi Ht).
        -- apply ltb_false in E2.
           destruct i as [|i]; cbn [nth_error] in Hi.
           ++ injection Hi as Ht1 Hv1. subst ti vi.
              eexists. split; [reflexivity|].
              apply line_at_right; assumption.
           ++ exfalso.
              pose proof (later_is_greater (t1, v1) _ Hinc' i ti vi Hi) as Hl.
              cbn [fst] in Hl. rewrite Ht in E2.
              exact (Qlt_not_le _ _ Hl E2).
Qed.

Lemma between_samples (series : Series Q) (t : Q) :
  increasing series = true ->
  forall i ta va tb vb,
    nth_error series i = Some (ta, va) ->
    nth_error series (S i) = Some (tb, vb) ->
    ta < t < tb ->
    on_polygon series t = Some (line_through ta va tb vb t).
Proof.
  induction series as [|[t0 v0] rest IH]; intros Hinc i ta va tb vb Ha Hb [Hlo Hhi].
  - destruct i; discriminate.
  - destruct rest as [|[t1 v1] rest'].
    + destruct i; cbn in Hb; [discriminate|destruct i; discriminate].
    + pose proof (increasing_cons _ _ _ Hinc) as [Hlt Hinc'].
      cbn [fst] in Hlt. cbn [on_polygon].
      destruct i as [|i]; cbn [nth_error] in Ha, Hb.
      * injection Ha as Ht0 Hv0. injection Hb as Ht1 Hv1. subst.
        assert (E1 : nltb t ta = false) by (apply ltb_false, Qlt_le_weak; exact Hlo).
        assert (E2 : nltb tb t = false) by (apply ltb_false, Qlt_le_weak; exact Hhi).
        rewrite E1, E2. reflexivity.
      * assert (Hge : t1 <= ta).
        { destruct i as [|i]; cbn [nth_error] in Ha.
          - injection Ha as Ht1 _. rewrite Ht1. apply Qle_refl.
          - apply Qlt_le_weak.
            exact (later_is_greater (t1, v1) _ Hinc' i ta va Ha). }
        assert (E1 : nltb t t0 = false).
        { apply ltb_false, Qlt_le_weak.
          apply Qlt_trans with t1; [exact Hlt|].
          apply Qle_lt_trans with ta; assumption. }
        assert (E2 : nltb t1 t = true).
        { apply ltb_true. apply Qle_lt_trans with ta; assumption. }
        rewrite E1, E2.
        exact (IH Hinc' i ta va tb vb Ha Hb (conj Hlo Hhi)).
Qed.

(** C3 (as amended).  For a series with strictly increasing sample times,
    in exact arithmetic the callable returned by [interpolate] gives at a
    sample time that sample's value and strictly between two adjacent
    sample times the value on the line through the two bracketing
    samples.  For the samples [(0,0), (10,10), (20,5)], [f(5)] is 5 and
    [f(10)] is 10, over the rationals and bit for bit in binary64. *)
Theorem interpolate_through_samples :
  forall (outside : Series Q -> Q -> result Q) (series : Series Q),
    increasing series = true ->
    (forall t i ti vi,
        nth_error series i = Some (ti, vi) -> t == ti ->
        exists r, interpolate outside series t = OK r /\ r == vi) /\
    (forall t i ta va tb vb,
        nth_error series i = Some (ta, va) ->
        nth_error series (S i) = Some (tb, vb) ->
        ta < t < tb ->
        interpolate outside series t = OK (line_through ta va tb vb t)) /\
    (exists r5 r10,
        interpolate outside samples 5 = OK r5 /\ r5 == 5 /\
        interpolate outside samples 10 = OK r10 /\ r10 == 10) /\
    (forall outside_f : Series float -> float -> result float,
        interpolate outside_f samples 5%float = OK 5%float /\
        interpolate outside_f samples 10%float = OK 10%float).
Proof.
  intros outside series Hinc. split; [|split; [|split]].
  - intros t i ti vi Hi Ht.
    destruct (on_sample series t Hinc i ti vi Hi Ht) as [r [Hr Hv]].
    exists r. unfold interpolate. rewrite Hr. split; [reflexivity|exact Hv].
  - intros t i ta va tb vb Ha Hb Hbetween.
    unfold interpolate.
    rewrite (between_samples series t Hinc i ta va tb vb Ha Hb Hbetween).
    reflexivity.
  - eexists. eexists.
    split; [unfold interpolate; cbn; reflexivity|].
    split; [vm_compute; reflexivity|].
    split; [unfold interpolate; cbn; reflexivity|].
    vm_compute; reflexivity.
  - intro outside_f. split; vm_compute; reflexivity.
Qed.

Lemma interpolate_through_samples_witness :
  (exists r, interpolate refuse samples 20 = OK r /\ r == 5) /\
  interpolate refuse samples 15 = OK (line_through 10 10 20 5 15).
Proof.
  assert (Hinc : increasing (A := Q) samples = true) by (vm_compute; reflexivity).
  destruct (interpolate_through_samples refuse samples Hinc)
    as [Hon [Hbetween _]].
  split.
  - apply (Hon 20 2%nat 20 5); [reflexivity|reflexivity].
  - apply (Hbetween 15 1%nat 10 10 20 5); [reflexivity|reflexivity|].
    split; reflexivity.
Defined.

(** C3 (as stated) fails in binary64.  A sample time after the first is
    the right end of a segment: for the samples [(0, 0)] and [(49, 1)] the
    slope [1 / 49] is rounded, and [f(49)] is [0 + 1/49 * 49], one unit in
    the last place below the sample's value 1. *)
Lemma interpolate_rounds_at_a_sample :
  increasing ramp = true /\
  nth_error ramp 1 = Some (49%float, 1%float) /\
  (forall outside : Series float -> float -> result float,
      interpolate outside ramp 49%float = OK 0.99999999999999989%float) /\
  PrimFloat.eqb 0.99999999999999989%float 1%float = false /\
  PrimFloat.ltb 0.99999999999999989%float 1%float = true.
Proof.
  split; [vm_compute; reflexivity|]. split; [reflexivity|].
  split; [intro outside; vm_compute; reflexivity|].
  split; vm_compute; reflexivity.
Qed.

End InterpFacts.

(** ** The driver: shape of the returned trajectory *)

Module SolverFacts.
Import Solver Results.
Local Open Scope Q_scope.

Lemma bind_ok {X Y : Type} (r : result X) (k : X -> result Y) (y : Y) :
  bind r k = OK y -> exists x, r = OK x /\ k x = OK y.
Proof.
  destruct r as [x|e]; cbn; intro Hk; [|discriminate].
  exists x. split; [reflexivity|exact Hk].
Qed.

Lemma OK_inj {X : Type} (a b : X) : OK a = OK b -> a = b.
Proof. intro E. injection E as E. exact E. Qed.




Section Shape.
Variable stepper : Stepper.
Variable slope_func : Slope.
Variable t_end : Q.
Variable dt : Q.
Variable events : option Event.

(** What the driver needs of the integrator: an accepted step moves time
    forward and does not pass the end of the interval. *)
Hypothesis step_advances :
  forall t s t1 s1,
    t < t_end -> stepper slope_func t_end dt t s = OK (t1, s1) ->
    t < t1 /\ t1 <= t_end.



End Shape.

(** The Runge-Kutta step satisfies what the driver needs. *)
Lemma rk4_advances (slope : Slope) (t_end dt : Q) :
  forall t s t1 s1,
    t < t_end -> rk4 slope t_end dt t s = OK (t1, s1) ->
    t < t1 /\ t1 <= t_end.
Proof.
  intros t s t1 s1 Hlt Hstep. unfold rk4 in Hstep.
  destruct (Qle_bool dt 0) eqn:Hdt; [discriminate|].
  assert (Hpos : 0 < dt).
  { apply Qnot_le_lt. intro Hc. apply Qle_bool_iff in Hc. congruence. }
  repeat (apply bind_ok in Hstep; destruct Hstep as [? [_ Hstep]]).
  apply OK_inj in Hstep. apply (f_equal fst) in Hstep. cbn [fst] in Hstep.
  subst t1.
  destruct (Qle_bool (t_end - t) dt) eqn:Hcap.
  - split; [exact Hlt|apply Qle_refl].
  - assert (Hroom : dt < t_end - t).
    { apply Qnot_le_lt. intro Hc. apply Qle_bool_iff in Hc. congruence. }
    rewrite !Qred_correct. split; Lqa.lra.
Qed.


(** *** The penny under any exact integrator *)

Lemma impact_on_grid (t1 : Q) :
  0 <= t1 -> 381 - (49 # 10) * (t1 * t1) == 0 -> near_impact t1.
Proof. intros H0 H. split; Lqa.nra. Qed.

Lemma impact_between (t t1 y y1 te : Q) :
  0 <= t -> t < t1 -> t1 - t <= 1 # 10 ->
  y == 381 - (49 # 10) * (t * t) ->
  y1 == 381 - (49 # 10) * (t1 * t1) ->
  0 < y -> y1 < 0 ->
  te * (t + t1) == t * t1 + (3810 # 49) ->
  near_impact te.
Proof.
  intros H0 Hlt Hh Hy Hy1 Hpos Hneg Hte.
  assert (Ht : t < 8818 # 1000) by Lqa.nra.
  assert (Ht1 : 8817 # 1000 < t1) by Lqa.nra.
  split; Lqa.nra.
Qed.

Lemma no_crossing_above (y y1 : Q) :
  0 < y -> crossed Either y y1 = false -> 0 < y1.
Proof.
  intros Hy Hc. unfold crossed in Hc.
  apply orb_false_iff in Hc. destruct Hc as [_ Hfall].
  apply andb_false_iff in Hfall. destruct Hfall as [Hf|Hf].
  - apply InterpFacts.ltb_false in Hf. Lqa.lra.
  - apply Qnot_le_lt. intro Hle. apply Qle_bool_iff in Hle. congruence.
Qed.

Lemma crossing_below (y y1 : Q) :
  0 < y -> crossed Either y y1 = true -> y1 <= 0.
Proof.
  intros Hy Hc. unfold crossed in Hc.
  apply orb_true_iff in Hc. destruct Hc as [Hc|Hc].
  - apply orb_true_iff in Hc. destruct Hc as [Hc|Hc].
    + apply Qeq_bool_iff in Hc. Lqa.lra.
    + apply andb_true_iff in Hc. destruct Hc as [Hc _].
      apply InterpFacts.ltb_true in Hc. Lqa.lra.
  - apply andb_true_iff in Hc. destruct Hc as [_ Hc].
    apply Qle_bool_iff in Hc. exact Hc.
Qed.

Section AnyExactIntegrator.
Variable stepper : Stepper.
Hypothesis stepper_exact : exact_on_penny stepper.

Lemma penny_integrate (fuel : nat) :
  forall t y v rest d,
    0 <= t ->
    y == 381 - (49 # 10) * (t * t) ->
    v == - ((98 # 10) * t) ->
    0 < y ->
    integrate stepper (penny_slope Penny.system) (Penny.t_end Penny.system)
      (Penny.dt Penny.system) (Some (penny_event Penny.system))
      fuel t [y; v] y = OK (rest, d) ->
    status_of d <> ReachedEnd /\
    (status_of d = TerminationEvent ->
     exists te ys vs,
       t_events d = [te] /\
       last_after (t, [y; v]) rest = (te, [ys; vs]) /\
       near_impact te /\ ys == 0).
Proof.
  induction fuel as [|fuel IH]; intros t y v rest d H0 Hy Hv Hpos Hrun;
    cbn [integrate] in Hrun.
  - destruct (Qle_bool (Penny.t_end Penny.system) t) eqn:Hend.
    + apply Qle_bool_iff in Hend. cbn in Hend. exfalso. Lqa.nra.
    + apply OK_inj in Hrun. injection Hrun as Hr Hd. subst rest d.
      cbn. split; [discriminate|discriminate].
  - destruct (Qle_bool (Penny.t_end Penny.system) t) eqn:Hend.
    { apply Qle_bool_iff in Hend. cbn in Hend. exfalso. Lqa.nra. }
    assert (Hlt : t < Penny.t_end Penny.system).
    { apply Qnot_le_lt. intro Hc. apply Qle_bool_iff in Hc. congruence. }
    destruct (stepper (penny_slope Penny.system) (Penny.t_end Penny.system)
                (Penny.dt Penny.system) t [y; v]) as [[t1 s1]|err] eqn:Hstep.
    2:{ destruct err; try discriminate.
        apply OK_inj in Hrun. injection Hrun as Hr Hd. subst rest d.
        cbn. split; discriminate. }
    destruct (stepper_exact t y v t1 s1 Hlt Hstep)
      as [Hadv [Hcap [Hh [y1 [v1 [Hs1 [Hy1 Hv1]]]]]]].
    subst s1. cbn in Hcap, Hh, Hy1, Hv1.
    assert (Hy1' : y1 == 381 - (49 # 10) * (t1 * t1)).
    { rewrite Hy1, Hy, Hv. field. }
    assert (Hv1' : v1 == - ((98 # 10) * t1)).
    { rewrite Hv1, Hv. ring. }
    cbn [penny_event event_func dir terminal bind Penny.event_func Penny.y] in Hrun.
    destruct (crossed Either y y1) eqn:Hcross.
    + apply OK_inj in Hrun.
      rewrite (surjective_pairing (extend _ _ _)) in Hrun.
      injection Hrun as Hr Hd. subst rest d.
      cbn [extend stopped fst snd status_of t_events last_after].
      split; [discriminate|]. intros _.
      pose proof (crossing_below y y1 Hpos Hcross) as Hbelow.
      unfold locate. destruct (Qeq_bool y1 0) eqn:Hz.
      * apply Qeq_bool_iff in Hz.
        exists t1, y1, v1. cbn [fst].
        split; [reflexivity|]. split; [reflexivity|].
        split; [|exact Hz].
        apply impact_on_grid; [Lqa.lra|]. rewrite <- Hy1'. exact Hz.
      * assert (Hneg : y1 < 0).
        { apply Qle_lt_or_eq in Hbelow. destruct Hbelow as [Hb|Hb]; [exact Hb|].
          apply Qeq_bool_iff in Hb. congruence. }
        assert (Hden : ~ y - y1 == 0) by (intro E; Lqa.lra).
        assert (Hth : y / (y - y1) * (y - y1) == y) by (field; exact Hden).
        cbn [fst lerp combine map snd].
        eexists. eexists. eexists.
        split; [reflexivity|]. split; [reflexivity|].
        generalize dependent (y / (y - y1)). intros theta Hth.
        split.
        -- apply (impact_between t t1 y y1); try assumption.
           assert (Hdiff : y - y1 == (49 # 10) * (t1 - t) * (t + t1)).
           { rewrite Hy1', Hy. ring. }
           assert (Hstepsz : 0 < t1 - t) by Lqa.lra.
           assert (Hsum : 0 < t + t1) by Lqa.lra.
           Lqa.nra.
        -- Lqa.nra.
    + pose proof (no_crossing_above y y1 Hpos Hcross) as Habove.
      apply bind_ok in Hrun. destruct Hrun as [[rest' d'] [Hrec Hrun]].
      apply OK_inj in Hrun.
      rewrite (surjective_pairing (extend _ _ _)) in Hrun.
      injection Hrun as Hr Hd. subst rest d.
      cbn [extend fst snd status_of t_events last_after].
      assert (H0' : 0 <= t1) by Lqa.lra.
      exact (IH t1 y1 v1 rest' d' H0' Hy1' Hv1' Habove Hrec).
Qed.
End AnyExactIntegrator.

Lemma rk4_exact_on_penny : exact_on_penny rk4.
Proof.
  intros t y v t1 s1 Hlt Hstep.
  destruct (rk4_advances _ _ _ t [y; v] t1 s1 Hlt Hstep) as [Hadv Hcap].
  split; [exact Hadv|]. split; [exact Hcap|].
  unfold rk4 in Hstep.
  change (Qle_bool (Penny.dt Penny.system) 0) with false in Hstep.
  cbn [bind penny_slope Penny.slope_func Penny.v Penny.g Penny.system
       axpy List.length Nat.eqb combine map fst snd] in Hstep.
  apply OK_inj in Hstep.
  pose proof (f_equal fst Hstep) as Ht1. pose proof (f_equal snd Hstep) as Hs1.
  cbn [fst snd] in Ht1, Hs1. clear Hstep.
  change (Penny.t_end Penny.system) with 10 in *.
  change (Penny.dt Penny.system) with (1 # 10) in *.
  change (Penny.g Penny.system) with (98 # 10).
  change (nneg (98 # 10)) with (- (98 # 10)) in Hs1.
  assert (Hh : exists h, (if Qle_bool (10 - t) (1 # 10) then 10 - t else 1 # 10) == h /\
                         h == t1 - t /\ h <= 1 # 10).
  { destruct (Qle_bool (10 - t) (1 # 10)) eqn:Hc.
    - exists (10 - t). split; [reflexivity|]. subst t1.
      split; [reflexivity|]. apply Qle_bool_iff. exact Hc.
    - exists (1 # 10). split; [reflexivity|]. subst t1.
      rewrite !Qred_correct. split; [ring|apply Qle_refl]. }
  destruct Hh as [h [Hred [Hh Hsmall]]].
  split; [rewrite <- Hh; exact Hsmall|].
  subst s1. eexists. eexists. split; [reflexivity|].
  split.
  - repeat rewrite Qred_correct. rewrite Hred, <- Hh. field.
  - repeat rewrite Qred_correct. rewrite Hred, <- Hh. field.
Qed.

Lemma last_after_fst (p : Q * Flat) (rest : Trajectory) :
  last_after (fst p) (times rest) = fst (last_after p rest).
Proof.
  revert p. induction rest as [|q rest IH]; intro p; [reflexivity|].
  cbn [times map last_after]. apply IH.
Qed.

(** Whatever integrator follows the penny exactly with steps of at most
    [dt = 0.1], the run cannot reach [t_end = 10], and when it ends by the
    terminal event the event time is within a millisecond of 8.818 and the
    height there is zero. *)
Lemma penny_impact_for_any_exact_integrator :
  forall (stepper : Stepper) (max_steps : nat)
         (traj : Trajectory) (d : Details),
    exact_on_penny stepper ->
    penny_run_with stepper max_steps = OK (traj, d) ->
    status_of d <> ReachedEnd /\
    (status_of d = TerminationEvent ->
     exists te ys vs,
       t_events d = [te] /\
       last_time traj = Some te /\
       last_state traj = Some [ys; vs] /\
       near_impact te /\ ys == 0).
Proof.
  intros stepper max_steps traj d Hexact Hrun.
  unfold penny_run_with, run_solve_ivp in Hrun.
  cbn [penny_event event_func bind penny_flat Penny.init Penny.system
       Penny.event_func Penny.y Penny.v] in Hrun.
  apply bind_ok in Hrun. destruct Hrun as [[rest d'] [Hint Hrun]].
  apply OK_inj in Hrun. cbn [fst snd] in Hrun.
  injection Hrun as Htraj Hd. subst traj d'.
  assert (H0 : 0 <= 0) by apply Qle_refl.
  assert (Hy : 381 == 381 - (49 # 10) * (0 * 0)) by ring.
  assert (Hv : 0 == - ((98 # 10) * 0)) by ring.
  assert (Hpos : 0 < 381) by reflexivity.
  destruct (penny_integrate stepper Hexact max_steps 0 381 0 rest d
              H0 Hy Hv Hpos Hint) as [Hnot Hev].
  split; [exact Hnot|]. intro Hterm.
  destruct (Hev Hterm) as [te [ys [vs [Hte [Hlast [Hnear Hzero]]]]]].
  exists te, ys, vs. split; [exact Hte|].
  split.
  - unfold last_time. cbn [times map fst].
    f_equal. etransitivity; [exact (last_after_fst (0, [381; 0]) rest)|].
    exact (f_equal fst Hlast).
  - split; [|split; assumption].
    unfold last_state. f_equal. exact (f_equal snd Hlast).
Qed.

(** C1.  For the penny (initial state [y = 381, v = 0], slope [(v, -g)]
    with [g = 9.8], event function [y]) the driver stops at a terminal
    event whose time is within [1/1000] of 8.818, and the last sample's
    [y] is within [1/1000] of 0.  The free-fall time
    [sqrt (2 * 381 / 9.8)] lies between 8.817 and 8.819. *)
Theorem penny_reaches_the_sidewalk :
  exists (traj : Trajectory) (d : Details) (te y v : Q),
    penny_run = OK (traj, d) /\
    status_of d = TerminationEvent /\
    t_events d = [te] /\
    last_time traj = Some te /\
    last_state traj = Some [y; v] /\
    Qabs (te - (8818 # 1000)) < 1 # 1000 /\
    Qabs y < 1 # 1000 /\
    (8817 # 1000) ^ 2 < 2 * 381 / (98 # 10) /\
    2 * 381 / (98 # 10) < (8819 # 1000) ^ 2.
Proof.
  destruct penny_run as [[traj d]|e] eqn:Hrun; [|vm_compute in Hrun; discriminate].
  vm_compute in Hrun. injection Hrun as Htraj Hd. subst traj d.
  do 5 eexists.
  split; [reflexivity|].
  split; [reflexivity|].
  split; [reflexivity|].
  split; [reflexivity|].
  split; [reflexivity|].
  repeat split; vm_compute; reflexivity.
Qed.

(** Without the event function the run goes on to [t_end = 10], where the
    height is negative: the simulation ran too long, as chapter 20 notes. *)
Lemma penny_without_event_runs_too_long :
  exists (traj : Trajectory) (d : Details),
    penny_run_no_event = OK (traj, d) /\
    status_of d = ReachedEnd /\
    t_events d = [] /\
    last_time traj = Some 10 /\
    last_state traj = Some [-109 # 1; -98 # 1].
Proof.
  destruct penny_run_no_event as [[traj d]|e] eqn:Hrun;
    [|vm_compute in Hrun; discriminate].
  vm_compute in Hrun. injection Hrun as Htraj Hd. subst traj d.
  do 2 eexists. repeat split; reflexivity.
Qed.

End SolverFacts.

(** * Further properties of the notebooks' functions *)

(** ** Chapter 7: the shape of quadratic growth *)

Module GrowthShape.
Import Growth.
Local Open Scope Q_scope.

Lemma growth_factored (system : System Q) (t p : Q) :
  growth_func_quad t p system == p * (alpha system + beta system * p).
Proof. unfold growth_func_quad; cbn. ring. Qed.

Lemma carrying_capacity_value (system : System Q) :
  ~ beta system == 0 ->
  carrying_capacity system = OK (- alpha system / beta system).
Proof.
  intro Hb. unfold carrying_capacity, pydiv; cbn.
  change (inject_Z 0) with 0.
  rewrite (GrowthFacts.Qeq_bool_false_neq _ _ Hb). reflexivity.
Qed.

(** X1.  In exact arithmetic, with [beta <> 0], net growth is zero at
    exactly two populations: 0 and the carrying capacity [-alpha / beta]. *)
Theorem growth_zero_iff_equilibrium :
  forall (system : System Q) (t p : Q),
    ~ beta system == 0 ->
    (growth_func_quad t p system == 0 <->
     p == 0 \/ p == - alpha system / beta system).
Proof.
  intros system t p Hb. rewrite growth_factored. split.
  - intro Hz. apply Qmult_integral in Hz. destruct Hz as [Hz|Hz].
    + left. exact Hz.
    + right.
      assert (Hp : beta system * p == - alpha system) by Lqa.lra.
      rewrite <- Hp. field. exact Hb.
  - intros [Hp|Hp]; rewrite Hp.
    + ring.
    + field. exact Hb.
Qed.

Lemma growth_zero_iff_equilibrium_witness :
  growth_func_quad 0 0 sys1_exact == 0 /\
  growth_func_quad 0 (125 # 9) sys1_exact == 0 /\
  ~ growth_func_quad 0 10 sys1_exact == 0.
Proof.
  assert (Hb : ~ beta sys1_exact == 0) by (vm_compute; discriminate).
  split; [|split].
  - apply (growth_zero_iff_equilibrium sys1_exact 0 0 Hb). left. reflexivity.
  - apply (growth_zero_iff_equilibrium sys1_exact 0 (125 # 9) Hb).
    right. vm_compute. reflexivity.
  - intro Hz. apply (growth_zero_iff_equilibrium sys1_exact 0 10 Hb) in Hz.
    destruct Hz as [Hz|Hz]; vm_compute in Hz; discriminate.
Defined.

(** X2.  The quadratic model is the logistic model [r p (1 - p / K)] with
    [r = alpha] and [K] the value [carrying_capacity] returns, whenever
    [alpha] and [beta] are nonzero. *)
Theorem growth_is_logistic :
  forall (system : System Q),
    ~ alpha system == 0 -> ~ beta system == 0 ->
    exists K : Q,
      carrying_capacity system = OK K /\
      ~ K == 0 /\
      forall t p : Q,
        growth_func_quad t p system == alpha system * p * (1 - p / K).
Proof.
  intros system Ha Hb.
  pose proof (carrying_capacity_value system Hb) as HK.
  exists (- alpha system / beta system). split; [exact HK|].
  assert (HK0 : ~ - alpha system / beta system == 0).
  { intro Hz. apply Ha.
    assert (E : - alpha system / beta system * beta system == - alpha system)
      by (field; exact Hb).
    rewrite Hz in E. Lqa.lra. }
  split; [exact HK0|].
  intros t p. unfold growth_func_quad; cbn. field. split; assumption.
Qed.

Lemma growth_is_logistic_witness :
  exists K : Q,
    carrying_capacity sys1_exact = OK K /\
    ~ K == 0 /\
    forall t p : Q,
      growth_func_quad t p sys1_exact == alpha sys1_exact * p * (1 - p / K).
Proof.
  apply (growth_is_logistic sys1_exact); vm_compute; discriminate.
Defined.

(** X3.  With [alpha > 0] and [beta < 0] the carrying capacity [K] is
    positive; the population grows strictly between 0 and [K], shrinks
    above [K] (and below 0), and the growth is nowhere larger than at
    [K / 2]. *)
Theorem growth_regimes :
  forall (system : System Q) (t p : Q),
    0 < alpha system -> beta system < 0 ->
    exists K : Q,
      carrying_capacity system = OK K /\
      0 < K /\
      (0 < p -> p < K -> 0 < growth_func_quad t p system) /\
      (K < p -> growth_func_quad t p system < 0) /\
      (p < 0 -> growth_func_quad t p system < 0) /\
      growth_func_quad t p system <= growth_func_quad t (K / 2) system.
Proof.
  intros system t p Ha Hb.
  assert (Hb0 : ~ beta system == 0) by (intro E; Lqa.lra).
  pose proof (carrying_capacity_value system Hb0) as HK.
  exists (- alpha system / beta system). split; [exact HK|].
  assert (E : - alpha system / beta system * beta system == - alpha system)
    by (field; exact Hb0).
  generalize dependent (- alpha system / beta system). intros K _ E.
  assert (HKpos : 0 < K) by Lqa.nra.
  split; [exact HKpos|].
  rewrite !growth_factored.
  assert (Hhalf : K / 2 * 2 == K) by field.
  generalize dependent (K / 2). intros h Hhalf.
  assert (Hform : forall q, q * (alpha system + beta system * q)
                            == - beta system * (q * (K - q))).
  { intro q. setoid_replace (alpha system) with (- (K * beta system))
      by Lqa.lra. ring. }
  rewrite !Hform.
  assert (Hnb : 0 < - beta system) by Lqa.lra.
  split; [|split; [|split]].
  - intros H0 H1. apply Qmult_lt_0_compat; [exact Hnb|].
    apply Qmult_lt_0_compat; Lqa.lra.
  - intro H1. assert (0 < p * (p - K)) by (apply Qmult_lt_0_compat; Lqa.lra).
    Lqa.nra.
  - intro H1. assert (0 < (- p) * (K - p)) by (apply Qmult_lt_0_compat; Lqa.lra).
    Lqa.nra.
  - assert (Hsq : 0 <= (p - h) * (p - h)).
    { destruct (Qlt_le_dec p h) as [Hlt|Hge].
      - setoid_replace ((p - h) * (p - h)) with ((h - p) * (h - p)) by ring.
        apply Qmult_le_0_compat; Lqa.lra.
      - apply Qmult_le_0_compat; Lqa.lra. }
    assert (Hdiff : h * (K - h) - p * (K - p) == (p - h) * (p - h)).
    { setoid_replace K with (h * 2) by Lqa.lra. ring. }
    assert (Hle : p * (K - p) <= h * (K - h)) by Lqa.lra.
    setoid_replace (- beta system * (h * (K - h)))
      with (- beta system * (p * (K - p))
            + - beta system * (h * (K - h) - p * (K - p))) by ring.
    assert (0 <= - beta system * (h * (K - h) - p * (K - p))).
    { apply Qmult_le_0_compat; Lqa.lra. }
    Lqa.lra.
Qed.

Lemma growth_regimes_witness :
  exists K : Q,
    carrying_capacity sys1_exact = OK K /\
    0 < K /\
    0 < growth_func_quad 0 10 sys1_exact /\
    growth_func_quad 0 10 sys1_exact <= growth_func_quad 0 (K / 2) sys1_exact.
Proof.
  assert (Ha : 0 < alpha sys1_exact) by reflexivity.
  assert (Hb : beta sys1_exact < 0) by reflexivity.
  destruct (growth_regimes sys1_exact 0 10 Ha Hb)
    as [K [HK [Hpos [Hin [_ [_ Hmax]]]]]].
  exists K. split; [exact HK|]. split; [exact Hpos|]. split; [|exact Hmax].
  apply Hin; [reflexivity|].
  unfold carrying_capacity, pydiv in HK. cbn in HK.
  injection HK as HK. rewrite <- HK. reflexivity.
Defined.

End GrowthShape.

(** ** Chapter 7: when the carrying capacity fails, and a dysfunction *)

Module CapacityEdges.
Import Growth Dysfunctions.
Local Open Scope Q_scope.

(** X4.  [carrying_capacity] raises [ZeroDivisionError] exactly when
    [beta] is zero, and returns a number otherwise; in binary64 both
    signed zeros raise. *)
Theorem carrying_capacity_raises_iff_beta_zero :
  (forall system : System Q,
      (carrying_capacity system = Err ZeroDivisionError <-> beta system == 0) /\
      (~ beta system == 0 ->
       exists K, carrying_capacity system = OK K /\ K * beta system == - alpha system)) /\
  (forall a : float,
      carrying_capacity {| alpha := a; beta := 0%float |} = Err ZeroDivisionError /\
      carrying_capacity {| alpha := a; beta := PrimFloat.opp 0%float |}
        = Err ZeroDivisionError).
Proof.
  split.
  - intro system. split.
    + unfold carrying_capacity, pydiv; cbn. change (inject_Z 0) with 0.
      destruct (Qeq_bool (beta system) 0) eqn:E; cbn.
      * apply Qeq_bool_iff in E. tauto.
      * split; [discriminate|]. intro Hz. apply Qeq_bool_iff in Hz. congruence.
    + intro Hb. exists (- alpha system / beta system).
      split; [exact (GrowthShape.carrying_capacity_value system Hb)|].
      field. exact Hb.
  - intro a. split; reflexivity.
Qed.

(** X5.  The version that clobbers its parameter returns [125 / 9] (about
    13.9) whatever system it is given, so it is right only for systems
    with [9 alpha + 125 beta = 0]; for the notebook's
    [System(alpha=0.03, beta=-0.002)], whose carrying capacity is 15, it
    is wrong.  In binary64 it returns 13.888888888888889 for every
    argument. *)
Theorem clobbered_capacity_ignores_its_argument :
  (forall system : System Q,
      exists K', carrying_capacity_clobbered system = OK K' /\ K' == 125 # 9) /\
  (forall system : System Q,
      ~ beta system == 0 ->
      exists K K',
        carrying_capacity system = OK K /\
        carrying_capacity_clobbered system = OK K' /\
        (K == K' <-> 9 * alpha system + 125 * beta system == 0)) /\
  (exists K K',
      carrying_capacity sys1_other = OK K /\ K == 15 /\
      carrying_capacity_clobbered sys1_other = OK K' /\ ~ K == K') /\
  (forall system : System float,
      carrying_capacity_clobbered system = OK 13.888888888888889%float).
Proof.
  split; [|split; [|split]].
  - intro system. eexists. split; [reflexivity|]. vm_compute. reflexivity.
  - intros system Hb.
    exists (- alpha system / beta system). eexists.
    split; [exact (GrowthShape.carrying_capacity_value system Hb)|].
    split; [reflexivity|].
    assert (E : - alpha system / beta system * beta system == - alpha system)
      by (field; exact Hb).
    generalize dependent (- alpha system / beta system). intros K E.
    assert (Hc : - decimal 25 1000 / - decimal 18 10000 == 125 # 9)
      by (vm_compute; reflexivity).
    cbn [Growth.alpha Growth.beta nneg ndiv Scalar_Q]. rewrite Hc. split.
    + intro HK. rewrite HK in E. Lqa.lra.
    + intro H9.
      assert (E2 : (K - (125 # 9)) * beta system == 0) by Lqa.lra.
      apply Qmult_integral in E2. destruct E2 as [E2|E2]; [Lqa.lra|contradiction].
  - eexists. eexists.
    split; [reflexivity|]. split; [vm_compute; reflexivity|].
    split; [reflexivity|]. vm_compute. discriminate.
  - intro system. vm_compute. reflexivity.
Qed.

Lemma carrying_capacity_raises_iff_beta_zero_witness :
  exists K,
    carrying_capacity sys1_other = OK K /\
    K * beta sys1_other == - alpha sys1_other.
Proof.
  destruct carrying_capacity_raises_iff_beta_zero as [Hq _].
  destruct (Hq sys1_other) as [_ Hok].
  apply Hok. vm_compute. discriminate.
Defined.

Lemma clobbered_capacity_ignores_its_argument_witness :
  exists K K',
    carrying_capacity sys1_exact = OK K /\
    carrying_capacity_clobbered sys1_exact = OK K' /\
    K == K'.
Proof.
  destruct clobbered_capacity_ignores_its_argument as [_ [Hagree _]].
  assert (Hb : ~ beta sys1_exact == 0) by (vm_compute; discriminate).
  destruct (Hagree sys1_exact Hb) as [K [K' [HK [HK' Hiff]]]].
  exists K, K'. split; [exact HK|]. split; [exact HK'|].
  apply Hiff. vm_compute. reflexivity.
Defined.

End CapacityEdges.

(** ** Chapter 22: what the slope function of the baseball computes *)

Module BaseballFlight.
Import Vec VecFacts.
Import BaseballSetup(speed, moving).
Local Open Scope R_scope.

Section WithHat.
Variable vector_hat : Vector R -> result (Vector R).

(** What chapter 22 documents of [vector_hat]. *)
Hypothesis vector_hat_nonzero :
  forall v, vector_mag v <> 0 -> vector_hat v = OK (vdiv v (vector_mag v)).

(** X6.  For a ball that moves (speed [|V| <> 0]) and has mass, the slope
    is the velocity together with the acceleration
    [(- c |V| vx, - g - c |V| vy)], where [c = rho C_d area / (2 mass)]:
    gravity plus a drag quadratic in the speed. *)
Theorem slope_func_closed_form :
  forall (t : R) (state : Baseball.State R) (system : Baseball.System R),
    speed state <> 0 ->
    Baseball.mass system <> 0 ->
    Baseball.slope_func vector_hat t state system =
    OK (Baseball.vx state,
        Baseball.vy state,
        - (Baseball.rho system * Baseball.C_d system * Baseball.area system
           / (2 * Baseball.mass system)) * speed state * Baseball.vx state,
        - Baseball.g system
        - (Baseball.rho system * Baseball.C_d system * Baseball.area system
           / (2 * Baseball.mass system)) * speed state * Baseball.vy state).
Proof.
  intros t state system Hv Hm. unfold speed in *.
  unfold Baseball.slope_func, Baseball.drag_force.
  rewrite (vector_hat_nonzero _ Hv). cbn [bind].
  set (m := vector_mag (mkVector (Baseball.vx state) (Baseball.vy state))) in *.
  cbn. f_equal. f_equal; [f_equal|]; field; split; assumption.
Qed.

(** X7.  Drag only takes mechanical energy away.  Along the slope, the
    rate of change [vx ax + vy ay + g vy] of the energy per unit mass
    [(vx^2 + vy^2) / 2 + g y] is [- (rho C_d area / (2 mass)) |V|^3]:
    never positive for non-negative [rho * C_d * area] and positive mass,
    and zero without drag ([C_d = 0]). *)
Theorem drag_dissipates_energy :
  forall (t : R) (state : Baseball.State R) (system : Baseball.System R),
    speed state <> 0 ->
    0 < Baseball.mass system ->
    exists dx dy ax ay : R,
      Baseball.slope_func vector_hat t state system = OK (dx, dy, ax, ay) /\
      Baseball.vx state * ax + Baseball.vy state * ay
        + Baseball.g system * Baseball.vy state
      = - (Baseball.rho system * Baseball.C_d system * Baseball.area system
           / (2 * Baseball.mass system)) * speed state ^ 3 /\
      (0 <= Baseball.rho system * Baseball.C_d system * Baseball.area system ->
       Baseball.vx state * ax + Baseball.vy state * ay
         + Baseball.g system * Baseball.vy state <= 0) /\
      (Baseball.C_d system = 0 ->
       ax = 0 /\ ay = - Baseball.g system).
Proof.
  intros t state system Hv Hm.
  assert (Hm0 : Baseball.mass system <> 0) by lra.
  pose proof (vector_mag_sq (mkVector (Baseball.vx state) (Baseball.vy state)))
    as Hsq.
  pose proof (vector_mag_nonneg (mkVector (Baseball.vx state) (Baseball.vy state)))
    as Hge.
  cbn [x y] in Hsq. unfold speed in *.
  unfold Baseball.slope_func, Baseball.drag_force.
  rewrite (vector_hat_nonzero _ Hv). cbn [bind].
  set (s := vector_mag (mkVector (Baseball.vx state) (Baseball.vy state))) in *.
  do 4 eexists. split; [reflexivity|].
  set (c := Baseball.rho system * Baseball.C_d system * Baseball.area system
            / (2 * Baseball.mass system)).
  cbn.
  assert (Hax : Baseball.g system * 0
                + Baseball.rho system * (s * s) * Baseball.C_d system
                  * Baseball.area system / 2 * - (Baseball.vx state / s)
                  / Baseball.mass system
                = - c * s * Baseball.vx state).
  { unfold c. field. split; assumption. }
  assert (Hay : Baseball.g system * -1
                + Baseball.rho system * (s * s) * Baseball.C_d system
                  * Baseball.area system / 2 * - (Baseball.vy state / s)
                  / Baseball.mass system
                = - Baseball.g system - c * s * Baseball.vy state).
  { unfold c. field. split; assumption. }
  rewrite Hax, Hay.
  assert (Hrate : Baseball.vx state * (- c * s * Baseball.vx state)
                  + Baseball.vy state
                    * (- Baseball.g system - c * s * Baseball.vy state)
                  + Baseball.g system * Baseball.vy state
                  = - c * (s * (s * (s * 1)))).
  { replace (s * (s * (s * 1))) with (s * (s * s)) by ring. rewrite Hsq. ring. }
  split; [exact Hrate|]. split.
  - intro Hpos. rewrite Hrate.
    assert (Hc : 0 <= c).
    { unfold c. apply Rmult_le_pos; [exact Hpos|].
      left. apply Rinv_0_lt_compat. lra. }
    assert (Hs3 : 0 <= s * (s * (s * 1))).
    { apply Rmult_le_pos; [exact Hge|]. apply Rmult_le_pos; [exact Hge|]. lra. }
    assert (0 <= c * (s * (s * (s * 1)))) by (apply Rmult_le_pos; assumption).
    lra.
  - intro Hcd. unfold c. rewrite Hcd. split; field; exact Hm0.
Qed.
End WithHat.

Lemma moving_speed : speed moving = 40.
Proof. exact BaseballFacts.V_test_mag. Qed.

Lemma hat_by_division_nonzero :
  forall v : Vector R,
    vector_mag v <> 0 -> hat_by_division v = OK (vdiv v (vector_mag v)).
Proof. intros v _. reflexivity. Qed.

Lemma slope_func_closed_form_witness :
  Baseball.slope_func hat_by_division 0 moving Baseball.system_test =
  OK (24, 32,
      - (Baseball.rho Baseball.system_test * Baseball.C_d Baseball.system_test
         * Baseball.area Baseball.system_test
         / (2 * Baseball.mass Baseball.system_test)) * speed moving * 24,
      - Baseball.g Baseball.system_test
      - (Baseball.rho Baseball.system_test * Baseball.C_d Baseball.system_test
         * Baseball.area Baseball.system_test
         / (2 * Baseball.mass Baseball.system_test)) * speed moving * 32).
Proof.
  apply (slope_func_closed_form hat_by_division hat_by_division_nonzero
           0 moving Baseball.system_test).
  - rewrite moving_speed. lra.
  - cbn. lra.
Defined.

Lemma drag_dissipates_energy_witness :
  exists dx dy ax ay : R,
    Baseball.slope_func hat_by_division 0 moving Baseball.system_test
      = OK (dx, dy, ax, ay) /\
    24 * ax + 32 * ay + Baseball.g Baseball.system_test * 32 <= 0.
Proof.
  assert (Hv : speed moving <> 0) by (rewrite moving_speed; lra).
  assert (Hm : 0 < Baseball.mass Baseball.system_test) by (cbn; lra).
  destruct (drag_dissipates_energy hat_by_division hat_by_division_nonzero
              0 moving Baseball.system_test Hv Hm)
    as [dx [dy [ax [ay [Hs [_ [Hle _]]]]]]].
  exists dx, dy, ax, ay. split; [exact Hs|].
  apply Hle. cbn. lra.
Defined.

End BaseballFlight.

(** ** Chapter 22: the system that [make_system] builds *)

Module BaseballSetupFacts.
Import Vec VecFacts BaseballSetup.
Local Open Scope R_scope.

(** X8.  [make_system] keeps the parameters and the initial position,
    gives the ball the requested speed ([velocity >= 0]) in the direction
    of [angle] degrees, and a frontal area [pi d^2 / 4] that is never
    negative; the event function of the initial state is the initial
    height. *)
Theorem make_system_initial_state :
  forall params : Params,
    0 <= velocity params ->
    BaseballSetup.params (make_system params) = params /\
    Baseball.x (init (make_system params)) = x params /\
    Baseball.y (init (make_system params)) = y params /\
    Baseball.vx (init (make_system params))
      = velocity params * cos (angle params * PI / 180) /\
    Baseball.vy (init (make_system params))
      = velocity params * sin (angle params * PI / 180) /\
    speed (init (make_system params)) = velocity params /\
    area (make_system params) = PI * (diameter params * diameter params) / 4 /\
    0 <= area (make_system params) /\
    (forall t : R,
        Baseball.event_func t (init (make_system params))
          (view (make_system params)) = y params).
Proof.
  intros params Hv. unfold make_system, deg2rad, Polar.pol2cart. cbn.
  repeat split; try reflexivity.
  - exact (PolarFacts.vector_mag_from_polar (angle params * PI / 180)
             (velocity params) Hv).
  - field.
  - pose proof PI_RGT_0 as Hpi.
    apply Rmult_le_pos; [lra|]. nra.
Qed.

Lemma make_system_initial_state_witness :
  speed (init (make_system params22)) = 40 /\
  Baseball.vx (init (make_system params22))
    = Baseball.vy (init (make_system params22)) /\
  0 <= area (make_system params22).
Proof.
  assert (Hv : 0 <= velocity params22) by (cbn; lra).
  destruct (make_system_initial_state params22 Hv)
    as [_ [_ [_ [Hvx [Hvy [Hspeed [_ [Harea _]]]]]]]].
  split; [exact Hspeed|]. split; [|exact Harea].
  rewrite Hvx, Hvy. cbn [velocity angle params22].
  replace (45 * PI / 180) with (PI / 4) by field.
  rewrite cos_PI4, sin_PI4. reflexivity.
Defined.

End BaseballSetupFacts.

(** ** Spider-Man: drag, terminal velocity and the first instant *)

Module WebFacts.
Import Vec Units VecFacts Web.
Local Open Scope R_scope.

(** X9.  The [drag_force] of the case study and the [drag_force] of
    chapter 22 are the same function of the velocity and of [rho], [C_d]
    and [area], whatever [vector_hat] does: they return the same force or
    fail alike. *)
Theorem drag_force_agrees_with_chapter_22 :
  forall (vector_hat : Vector R -> result (Vector R))
         (V : Vector R) (system : System),
    drag_force vector_hat V system
    = Baseball.drag_force vector_hat V (drag_view system).
Proof.
  intros vector_hat V system. unfold drag_force, Baseball.drag_force.
  destruct (vector_hat V) as [h|e]; cbn [bind]; [|reflexivity].
  f_equal. unfold vmul, smul; cbn. f_equal; ring.
Qed.

Lemma reqb_false (a b : R) : neqb a b = false <-> a <> b.
Proof.
  cbn. unfold Reqb. destruct (Req_dec_T a b) as [E|E]; split; intro H.
  - discriminate.
  - contradiction.
  - exact E.
  - reflexivity.
Qed.

Lemma make_system_ok (params : Params) (system : System) :
  make_system params = OK system ->
  rho params * area params * (v_term params * v_term params) <> 0 /\
  Web.params system = params /\
  init system = initial_condition params /\
  C_d system = 2 * mass params * g params
               / (rho params * area params * (v_term params * v_term params)).
Proof.
  unfold make_system, pydiv. cbn.
  destruct (Reqb (rho params * area params * (v_term params * v_term params)) 0)
    eqn:E; cbn; [discriminate|].
  intro H. injection H as H. subst system. cbn.
  split; [|repeat split; reflexivity].
  apply (reqb_false _ 0). exact E.
Qed.

(** X10.  Over the reals, [make_system] raises [ZeroDivisionError] exactly
    when the air density, the area or the terminal velocity is zero;
    otherwise it returns the system with
    [C_d = 2 mass g / (rho area v_term^2)]. *)
Theorem make_system_raises_iff_degenerate :
  forall params : Params,
    (make_system params = Err ZeroDivisionError <->
     rho params = 0 \/ area params = 0 \/ v_term params = 0) /\
    (rho params <> 0 -> area params <> 0 -> v_term params <> 0 ->
     exists system,
       make_system params = OK system /\
       Web.params system = params /\
       C_d system * (rho params * area params * v_term params ^ 2)
       = 2 * mass params * g params).
Proof.
  intro params.
  assert (Hden : rho params * area params * (v_term params * v_term params) = 0
                 <-> rho params = 0 \/ area params = 0 \/ v_term params = 0).
  { split.
    - intro H. apply Rmult_integral in H. destruct H as [H|H].
      + apply Rmult_integral in H. tauto.
      + apply Rmult_integral in H. tauto.
    - intros [H|[H|H]]; rewrite H; ring. }
  split.
  - unfold make_system, pydiv. cbn.
    destruct (Reqb (rho params * area params * (v_term params * v_term params)) 0)
      eqn:E; cbn.
    + unfold Reqb in E.
      destruct (Req_dec_T (rho params * area params
                           * (v_term params * v_term params)) 0) as [E0|_];
        [|discriminate].
      split; [intros _; apply Hden; exact E0|reflexivity].
    + apply (reqb_false _ 0) in E.
      split; [discriminate|]. intro H. apply Hden in H. contradiction.
  - intros Hr Ha Hv.
    assert (Hnz : rho params * area params * (v_term params * v_term params) <> 0).
    { intro H. apply Hden in H. tauto. }
    unfold make_system, pydiv. cbn.
    apply (reqb_false _ 0) in Hnz as E. cbn in E. rewrite E. cbn [bind].
    eexists. split; [reflexivity|]. cbn. split; [reflexivity|].
    field. repeat split; assumption.
Qed.

Lemma make_system_raises_iff_degenerate_witness :
  exists system,
    make_system params0 = OK system /\
    Web.params system = params0 /\
    C_d system * (rho params0 * area params0 * v_term params0 ^ 2)
    = 2 * mass params0 * g params0.
Proof.
  destruct (make_system_raises_iff_degenerate params0) as [_ Hok].
  apply Hok; cbn; lra.
Defined.

Section WithHelpers.
Variable vector_hat : Vector R -> result (Vector R).

Hypothesis vector_hat_nonzero :
  forall v, vector_mag v <> 0 -> vector_hat v = OK (vdiv v (vector_mag v)).

(** X11.  The drag coefficient that [make_system] derives from [v_term]
    makes the drag at that speed equal to the weight: for every velocity
    of magnitude [v_term], [drag_force] is [mass * g] against the
    direction of motion. *)
Theorem drag_at_terminal_speed_is_the_weight :
  forall (params : Params) (system : System) (V : Vector R),
    make_system params = OK system ->
    vector_mag V = v_term params ->
    exists f : Vector R,
      drag_force vector_hat V system = OK f /\
      f = smul (- (mass params * g params)) (vdiv V (vector_mag V)) /\
      vector_mag f = Rabs (mass params * g params).
Proof.
  intros params system V Hmk Hspeed.
  destruct (make_system_ok params system Hmk) as [Hden [Hp [_ Hcd]]].
  assert (Hv : v_term params <> 0).
  { intro H. apply Hden. rewrite H. ring. }
  assert (Hnz : vector_mag V <> 0) by (rewrite Hspeed; exact Hv).
  unfold drag_force. rewrite (vector_hat_nonzero V Hnz). cbn [bind].
  eexists. split; [reflexivity|].
  assert (Hf : vmul (vneg (vdiv V (vector_mag V)))
                 (rho (Web.params system) * npow (vector_mag V) 2 * C_d system
                  * area (Web.params system) / of_Z 2)%num
               = smul (- (mass params * g params)) (vdiv V (vector_mag V))).
  { rewrite Hp, Hcd, Hspeed. unfold vmul, vneg, smul; cbn.
    assert (Hr : rho params <> 0) by (intro H; apply Hden; rewrite H; ring).
    assert (Ha : area params <> 0) by (intro H; apply Hden; rewrite H; ring).
    f_equal; field; repeat split; assumption. }
  split; [exact Hf|].
  rewrite Hf, vector_mag_smul, (vector_mag_unit V Hnz), Rabs_Ropp. ring.
Qed.

Lemma straight_down_speed (v : R) :
  0 < v -> vector_mag (mkVector 0 (- v)) = v.
Proof.
  intro Hv. rewrite vector_mag_R. cbn.
  replace (0 * 0 + - v * - v) with (v * v) by ring.
  apply sqrt_square. lra.
Qed.

End WithHelpers.

Lemma params0_make_system :
  exists system, make_system params0 = OK system.
Proof.
  unfold make_system, pydiv. cbn.
  destruct (Reqb (12 / 10 * 1 * (60 * 60)) 0) eqn:E.
  - unfold Reqb in E.
    destruct (Req_dec_T (12 / 10 * 1 * (60 * 60)) 0) as [E0|_];
      [lra|discriminate].
  - eexists. reflexivity.
Qed.

Lemma drag_at_terminal_speed_is_the_weight_witness :
  exists system f,
    make_system params0 = OK system /\
    drag_force hat_by_division (V falling) system = OK f /\
    f = smul (- (mass params0 * g params0))
             (vdiv (V falling) (vector_mag (V falling))) /\
    vector_mag f = Rabs (mass params0 * g params0).
Proof.
  destruct params0_make_system as [system Hmk].
  assert (Hspeed : vector_mag (V falling) = v_term params0).
  { exact (straight_down_speed 60 ltac:(lra)). }
  destruct (drag_at_terminal_speed_is_the_weight hat_by_division
              BaseballFlight.hat_by_division_nonzero params0 system (V falling)
              Hmk Hspeed) as [f [Hf [Heq Hmag]]].
  exists system, f. repeat split; assumption.
Defined.

Section WithMagnitude.
Variable magnitude : Quantity R -> R.
Variable vector_hat : Vector R -> result (Vector R).

(** [magnitude] gives the number of a quantity, sign included. *)
Hypothesis magnitude_is_number : forall q, magnitude q = number q.

Hypothesis vector_hat_nonzero :
  forall v, vector_mag v <> 0 -> vector_hat v = OK (vdiv v (vector_mag v)).

Lemma hat_nonzero (L : QVector R) :
  vector_mag (components L) <> 0 -> hat vector_hat L = qhat_by_division L.
Proof.
  intro Hnz. unfold hat. rewrite (vector_hat_nonzero _ Hnz). reflexivity.
Qed.

(** The drag at the terminal velocity, straight down, cancels gravity. *)
Lemma drag_cancels_gravity (params : Params) (system1 : System)
      (t_final : R) (init2 : State) :
  make_system params = OK system1 ->
  0 < v_term params ->
  mass params <> 0 ->
  exists f_drag : Vector R,
    drag_force vector_hat (mkVector 0 (- v_term params))
               (release system1 t_final init2) = OK f_drag /\
    vadd (mkVector 0 (- g params)) (vdiv f_drag (mass params)) = vzero.
Proof.
  intros Hmk Hv Hm.
  destruct (make_system_ok params system1 Hmk) as [Hden [Hp [_ Hcd]]].
  assert (Hr : rho params <> 0) by (intro H; apply Hden; rewrite H; ring).
  assert (Ha : area params <> 0) by (intro H; apply Hden; rewrite H; ring).
  assert (Hv0 : v_term params <> 0) by lra.
  assert (Hdown : vector_mag (mkVector 0 (- v_term params)) <> 0).
  { rewrite (straight_down_speed _ Hv). exact Hv0. }
  unfold drag_force, release. cbn [Web.params rho area C_d].
  rewrite Hp, (vector_hat_nonzero _ Hdown), (straight_down_speed _ Hv).
  cbn [bind]. eexists. split; [reflexivity|].
  rewrite Hcd. unfold vadd, vdiv, vmul, vneg, vzero; cbn.
  f_equal; field; repeat split; assumption.
Qed.

(** X12.  Terminal velocity is an equilibrium of the second phase, where
    the web is not slack.  Once the web is let go ([k = 0 N/m]), a state
    that falls straight down at [v_term], at or beyond the rest length of
    the web, has zero acceleration: the slope function returns the
    velocity and the zero vector.  Short of the rest length [spring_force]
    returns a vector without unit and the sum of the accelerations raises
    [DimensionalityError]. *)
Theorem terminal_velocity_is_an_equilibrium :
  forall (params : Params) (system1 : System) (state init2 : State)
         (t t_final : R),
    make_system params = OK system1 ->
    0 < v_term params ->
    mass params <> 0 ->
    V state = mkVector 0 (- v_term params) ->
    vector_mag (vsub (P state) (mkVector 0 (height params))) <> 0 ->
    (length params
     <= vector_mag (vsub (P state) (mkVector 0 (height params))) ->
     slope_func magnitude vector_hat state t (release system1 t_final init2)
     = OK (V state, vzero)) /\
    (vector_mag (vsub (P state) (mkVector 0 (height params)))
     < length params ->
     slope_func magnitude vector_hat state t (release system1 t_final init2)
     = Err DimensionalityError).
Proof.
  intros params system1 state init2 t t_final Hmk Hv Hm HV HL.
  destruct (make_system_ok params system1 Hmk) as [_ [Hp _]].
  destruct (drag_cancels_gravity params system1 t_final init2 Hmk Hv Hm)
    as [f_drag [Hdrag Hsum]].
  assert (Hh : height (Web.params (release system1 t_final init2))
               = height params) by (cbn; rewrite Hp; reflexivity).
  assert (Hg : g (Web.params (release system1 t_final init2)) = g params)
    by (cbn; rewrite Hp; reflexivity).
  assert (Hmass : mass (Web.params (release system1 t_final init2))
                  = mass params) by (cbn; rewrite Hp; reflexivity).
  set (L := vsub (P state) (mkVector 0 (height params))) in *.
  assert (Hu : vunits (in_metres L)
               = units (SpiderMan.length
                          (spring_view (release system1 t_final init2))))
    by reflexivity.
  assert (Hlen : number (SpiderMan.length
                           (spring_view (release system1 t_final init2)))
                 = length params) by (cbn; rewrite Hp; reflexivity).
  split; intro Hcase.
  - unfold slope_func. rewrite Hh, Hg, Hmass. change (of_Z 0) with 0.
    fold L.
    rewrite (SpiderManFacts.spring_force_taut magnitude (hat vector_hat)
               magnitude_is_number hat_nonzero (in_metres L) _ HL Hu)
      by (rewrite Hlen; exact Hcase).
    cbn [bind]. rewrite HV, Hdrag. cbn [bind].
    change (nneg (g params)) with (- g params). rewrite Hsum.
    unfold qvadd, qvdiv. cbn [vunits units components number].
    assert (Hunit : unit_eqb acceleration
                      (udiv (umul (units (SpiderMan.k
                                            (spring_view
                                               (release system1 t_final init2))))
                                  (vunits (in_metres L)))
                            kilogram) = true) by reflexivity.
    rewrite Hunit. cbn [bind components]. f_equal. f_equal.
    assert (Hk : number (SpiderMan.k
                           (spring_view (release system1 t_final init2))) = 0)
      by reflexivity.
    rewrite Hk. cbn [components in_metres].
    unfold vadd, vdiv, vmul, vneg, vzero; cbn. f_equal; field; split; assumption.
  - unfold slope_func. rewrite Hh, Hg, Hmass. change (of_Z 0) with 0.
    fold L.
    rewrite (SpiderManFacts.spring_force_slack magnitude (hat vector_hat)
               magnitude_is_number hat_nonzero (in_metres L) _ HL Hu)
      by (rewrite Hlen; exact Hcase).
    cbn [bind]. rewrite HV, Hdrag. cbn [bind]. reflexivity.
Qed.

(** X13.  At the first instant the web is exactly as long as its rest
    length, so it exerts no force: over the reals [initial_condition] puts
    Spider-Man at distance [length] from the attachment point, at rest;
    the guard of [spring_force] is false there and the force is the zero
    vector, in newtons. *)
Theorem web_is_slack_free_at_the_start :
  forall (params : Params) (system : System),
    make_system params = OK system ->
    0 < length params ->
    V (init system) = vzero /\
    vector_mag (vsub (P (init system)) (mkVector 0 (height params)))
      = length params /\
    SpiderMan.spring_force magnitude (hat vector_hat)
      (in_metres (vsub (P (init system)) (mkVector 0 (height params))))
      (spring_view system)
    = OK (mkQVector vzero newton).
Proof.
  intros params system Hmk Hlen.
  destruct (make_system_ok params system Hmk) as [_ [Hp [Hinit _]]].
  rewrite Hinit.
  set (L := vsub (P (initial_condition params)) (mkVector 0 (height params))).
  assert (HL : L = Polar.from_polar (to_radian (angle params)) (length params)).
  { unfold L, initial_condition, Polar.from_polar, Polar.pol2cart, vsub, vadd.
    cbn. f_equal; ring. }
  assert (Hmag : vector_mag L = length params).
  { rewrite HL. apply PolarFacts.vector_mag_from_polar. lra. }
  split; [reflexivity|]. split; [exact Hmag|].
  assert (Hnz : vector_mag (components (in_metres L)) <> 0)
    by (cbn [components in_metres]; rewrite Hmag; lra).
  assert (Hu : vunits (in_metres L)
               = units (SpiderMan.length (spring_view system))) by reflexivity.
  assert (Hrest : number (SpiderMan.length (spring_view system))
                  = length params) by (cbn; rewrite Hp; reflexivity).
  rewrite (SpiderManFacts.spring_force_taut magnitude (hat vector_hat)
             magnitude_is_number hat_nonzero (in_metres L) _ Hnz Hu)
    by (rewrite Hrest; cbn [components in_metres]; rewrite Hmag; lra).
  cbn [components in_metres]. rewrite Hrest, Hmag.
  f_equal. f_equal.
  unfold vmul, vneg, vdiv, vzero; cbn. f_equal; ring.
Qed.
End WithMagnitude.

Lemma web_beyond_rest_length :
  vector_mag (vsub (P falling_beyond) (mkVector 0 (height params0))) = 150.
Proof.
  unfold falling_beyond, vsub; cbn.
  replace (mkVector (0 - 0) (231 - 381)) with (mkVector 0 (Ropp 150))
    by (f_equal; ring).
  apply straight_down_speed. lra.
Qed.

Lemma web_short_of_rest_length :
  vector_mag (vsub (P falling_short) (mkVector 0 (height params0))) = 50.
Proof.
  unfold falling_short, vsub; cbn.
  replace (mkVector (0 - 0) (331 - 381)) with (mkVector 0 (Ropp 50))
    by (f_equal; ring).
  apply straight_down_speed. lra.
Qed.

Lemma terminal_velocity_is_an_equilibrium_witness :
  exists system1,
    make_system params0 = OK system1 /\
    slope_func (@number R) hat_by_division falling_beyond 9
               (release system1 9 falling_beyond)
    = OK (V falling_beyond, vzero) /\
    slope_func (@number R) hat_by_division falling_short 9
               (release system1 9 falling_short)
    = Err DimensionalityError.
Proof.
  destruct params0_make_system as [system1 Hmk].
  assert (Hmag : forall q : Quantity R, number q = number q) by reflexivity.
  assert (Hv : 0 < v_term params0) by (cbn; lra).
  assert (Hm : mass params0 <> 0) by (cbn; lra).
  exists system1. split; [exact Hmk|]. split.
  - assert (HL : vector_mag (vsub (P falling_beyond)
                                  (mkVector 0 (height params0))) <> 0)
      by (rewrite web_beyond_rest_length; lra).
    apply (terminal_velocity_is_an_equilibrium (@number R) hat_by_division
             Hmag BaseballFlight.hat_by_division_nonzero params0 system1
             falling_beyond falling_beyond 9 9 Hmk Hv Hm eq_refl HL).
    rewrite web_beyond_rest_length. cbn. lra.
  - assert (HL : vector_mag (vsub (P falling_short)
                                  (mkVector 0 (height params0))) <> 0)
      by (rewrite web_short_of_rest_length; lra).
    apply (terminal_velocity_is_an_equilibrium (@number R) hat_by_division
             Hmag BaseballFlight.hat_by_division_nonzero params0 system1
             falling_short falling_short 9 9 Hmk Hv Hm eq_refl HL).
    rewrite web_short_of_rest_length. cbn. lra.
Defined.

Lemma web_is_slack_free_at_the_start_witness :
  exists system,
    make_system params0 = OK system /\
    V (init system) = vzero /\
    vector_mag (vsub (P (init system)) (mkVector 0 (height params0))) = 100 /\
    SpiderMan.spring_force (@number R) (hat hat_by_division)
      (in_metres (vsub (P (init system)) (mkVector 0 (height params0))))
      (spring_view system)
    = OK (mkQVector vzero newton).
Proof.
  destruct params0_make_system as [system Hmk].
  assert (Hmag : forall q : Quantity R, number q = number q) by reflexivity.
  assert (Hlen : 0 < length params0) by (cbn; lra).
  destruct (web_is_slack_free_at_the_start (@number R) hat_by_division
              Hmag BaseballFlight.hat_by_division_nonzero params0 system
              Hmk Hlen)
    as [HV [Hdist Hforce]].
  exists system. repeat split; assumption.
Defined.

End WebFacts.
